(** * The simulated FHE ciphertext engine of mcp-fhe-field-encryption

    A shallow embedding of [utils.ts] (ciphertext codec and algebra),
    [constants.ts] (FHE_CONSTANTS) and the parts of
    [mcp-fhe-field-encryption.service.ts] that sequence them (the operations
    of performHomomorphicOperation, noise report, key cache, circuit compiler
    and executor).

    Modelling conventions.
    - A [Uint8Array] is a [list Z] of values in [0, 256); a store into it
      wraps modulo 256 ([ToUint8]), a store outside its bounds is ignored.
    - JavaScript bitwise operators work on 32-bit two's complement integers:
      [ToInt32] and the [js_*] operators spell out the wrap-around.
    - [noise] and every other fractional quantity is a binary64 number,
      modelled by the kernel's primitive floats.  [depth] and [size] are
      integer-valued numbers and are modelled by [Z].
    - [Math.random], [Math.log], [Math.cos], [Math.floor], the remainder of
      two numbers and [keccak256] belong to the runtime: they are the
      operations of the [Platform] class.  The generator's state is threaded
      explicitly.
    - [async] functions are sequential; a thrown exception is the [Throw]
      outcome of [Result], with the message of the [Error].  A TypeError of
      the engine (a property read of [undefined]) is one fixed outcome: the
      engine's own message text is not modelled.
    - A serialized ciphertext that the service receives is a [Transport]:
      a string that deserializes, with the record it holds, or a string on
      which deserializeCiphertext throws. *)

From Stdlib Require Import ZArith Lia Floats.PrimFloat Floats.FloatOps Floats.SpecFloat.
From stdpp Require Import gmap strings list pretty.
From coqutil Require Import Z.bitblast.

Set Warnings "-inexact-float".
Local Open Scope Z_scope.

(** ** Outcomes *)

Inductive Result (A : Type) : Type :=
| Ok (a : A)
| Throw (message : string).
Arguments Ok {A} a.
Arguments Throw {A} message.

(** ** The runtime *)

Class Platform := {
  Rng : Type;
  Math_random : Rng -> float * Rng;
  Math_log : float -> float;
  Math_cos : float -> float;
  Math_floor : float -> float;
  number_rem : float -> float -> float;
  keccak256 : list Z -> list Z;
}.

Definition Math_PI : float := 3.141592653589793%float.

(** ** JavaScript integers and typed arrays *)

Definition ToInt32 (z : Z) : Z :=
  let m := z mod 2 ^ 32 in
  if m <? 2 ^ 31 then m else m - 2 ^ 32.

Definition js_shl (a n : Z) : Z := ToInt32 (Z.shiftl (ToInt32 a) (n mod 32)).
Definition js_sar (a n : Z) : Z := Z.shiftr (ToInt32 a) (n mod 32).
Definition js_and (a b : Z) : Z := Z.land (ToInt32 a) (ToInt32 b).
Definition js_or (a b : Z) : Z := Z.lor (ToInt32 a) (ToInt32 b).
Definition js_xor (a b : Z) : Z := Z.lxor (ToInt32 a) (ToInt32 b).

Definition is_byte (z : Z) : Prop := 0 <= z < 256.

Definition ToUint8 (z : Z) : Z := z mod 256.

(** The conversion of a number stored into a [Uint8Array]: NaN, zeros and
    infinities become 0, anything else is truncated and wrapped. *)
Definition ToUint8_number (f : float) : Z :=
  match Prim2SF f with
  | S754_finite s m e =>
      let magnitude := Z.shiftl (Z.pos m) e in
      ToUint8 (if s then - magnitude else magnitude)
  | _ => 0
  end.

(** The number that an integer denotes (round to nearest even). *)
Definition number_of_Z (z : Z) : float :=
  SF2Prim (binary_normalize prec emax z 0 false).

(** [new Uint8Array(n)] *)
Definition new_Uint8Array (n : nat) : list Z := replicate n 0.

(** [a[i]] read where [undefined] counts as 0 (out of bounds, bitwise or additive context). *)
Definition at_ (a : list Z) (i : Z) : Z :=
  if i <? 0 then 0 else default 0 (a !! Z.to_nat i).

(** [a[i] = v] *)
Definition store (a : list Z) (i : Z) (v : Z) : list Z :=
  if (0 <=? i) && (i <? Z.of_nat (length a)) then <[Z.to_nat i := ToUint8 v]> a else a.

(** [target.set(source, offset)]: a RangeError when the source does not fit. *)
Definition Uint8Array_set (target source : list Z) (offset : nat) : option (list Z) :=
  if decide (offset + length source <= length target)%nat
  then Some (take offset target ++ source ++ drop (offset + length source) target)
  else None.

(** [a.slice(start, end)] *)
Definition slice (a : list Z) (start end_ : Z) : list Z :=
  let len := Z.of_nat (length a) in
  let k := if start <? 0 then Z.max (len + start) 0 else Z.min start len in
  let final := if end_ <? 0 then Z.max (len + end_) 0 else Z.min end_ len in
  let count := Z.max (final - k) 0 in
  take (Z.to_nat count) (drop (Z.to_nat k) a).

(** [for (let i = 0; i < n; i++) body] over a state [S]. *)
Definition for_loop {S : Type} (n : nat) (body : nat -> S -> S) (s : S) : S :=
  fold_left (fun acc i => body i acc) (seq 0 n) s.

(** ** constants.ts *)

Module FHE_CONSTANTS.
Definition BASE_NOISE : float := 3.2%float.
Definition MAX_NOISE_LEVEL : float := 100%float.
Module NOISE_GROWTH_FACTORS.
Definition ADD : float := 1.1%float.
Definition MULTIPLY : float := 2.5%float.
Definition ROTATE : float := 1.2%float.
Definition NEGATE : float := 1.05%float.
Definition BOOTSTRAP : float := 0.1%float.
End NOISE_GROWTH_FACTORS.
Definition MAX_CIPHERTEXT_SIZE : Z := 3.
Module ERROR_MESSAGES.
End ERROR_MESSAGES.
(** SCHEME_PARAMS[scheme].noiseStandardDeviation, the same for the four schemes *)
Definition noiseStandardDeviation : float := 3.2%float.
End FHE_CONSTANTS.

(** ** Ciphertexts *)

(** The object [{data, noise, depth, size, bootstrapped, relinearized}]; an
    absent [bootstrapped] or [relinearized] reads as [false]. *)
Record Ciphertext := {
  data : list Z;
  noise : float;
  depth : Z;
  size : Z;
  bootstrapped : bool;
  relinearized : bool;
}.

(** ** utils.ts: encryption and decryption *)

Section Codec.
Context `{Platform}.

Definition gaussian_byte (stdDev u1 u2 : float) : Z :=
  let z0 := (sqrt (-2 * Math_log u1) * Math_cos (2 * Math_PI * u2))%float in
  ToUint8_number (number_rem (abs (Math_floor (z0 * stdDev)%float)) 256%float).

Fixpoint generateNoise_loop (n : nat) (stdDev : float) (rng : Rng) : list Z * Rng :=
  match n with
  | O => ([], rng)
  | S n' =>
      let '(u1, rng) := Math_random rng in
      let '(u2, rng) := Math_random rng in
      let b := gaussian_byte stdDev u1 u2 in
      let '(rest, rng) := generateNoise_loop n' stdDev rng in
      (b :: rest, rng)
  end.

Definition generateNoise (stdDev : float) (rng : Rng) : list Z * Rng :=
  generateNoise_loop 32 stdDev rng.

Definition xor_keystream (src noise : list Z) (n : nat) (dst : list Z) : list Z :=
  for_loop n
    (fun i acc =>
       store acc (Z.of_nat i)
         (js_xor (at_ src (Z.of_nat i))
                 (at_ noise (Z.of_nat (i mod length noise)))))
    dst.

Definition encryptValue (value : list Z) (noiseStdDev : float) (rng : Rng)
  : Result Ciphertext * Rng :=
  let '(noise, rng) := generateNoise noiseStdDev rng in
  let encrypted := new_Uint8Array (length value + 32) in
  let encrypted := xor_keystream value noise (length value) encrypted in
  let tag := keccak256 (value ++ noise) in
  match Uint8Array_set encrypted tag (length value) with
  | None => (Throw "RangeError: offset is out of bounds", rng)
  | Some encrypted =>
      (Ok {| data := encrypted; noise := noiseStdDev; depth := 0; size := 2;
             bootstrapped := false; relinearized := false |}, rng)
  end.

Definition decryptValue (ciphertext : Ciphertext) (rng : Rng)
  : Result (list Z) * Rng :=
  let data := data ciphertext in
  let originalLength := Z.of_nat (length data) - 32 in
  if originalLength <? 0 then (Throw "RangeError: Invalid typed array length", rng)
  else
    let decrypted := new_Uint8Array (Z.to_nat originalLength) in
    let '(noise, rng) := generateNoise (noise ciphertext) rng in
    (Ok (xor_keystream data noise (Z.to_nat originalLength) decrypted), rng).
End Codec.

(** ** utils.ts: the ciphertext algebra *)

Definition performHomomorphicAdd (a b : Ciphertext) : Ciphertext :=
  let result := new_Uint8Array (Nat.max (length (data a)) (length (data b))) in
  let result :=
    for_loop (length result)
      (fun i acc =>
         let aVal := if (i <? length (data a))%nat then at_ (data a) (Z.of_nat i) else 0 in
         let bVal := if (i <? length (data b))%nat then at_ (data b) (Z.of_nat i) else 0 in
         store acc (Z.of_nat i) (Z.rem (aVal + bVal) 256))
      result in
  {| data := result;
     noise := (noise a + noise b + FHE_CONSTANTS.NOISE_GROWTH_FACTORS.ADD)%float;
     depth := Z.max (depth a) (depth b);
     size := size a;
     bootstrapped := false; relinearized := false |}.

Definition multiply_row (a_i : Z) (i : nat) (b result : list Z) : list Z :=
  for_loop (length b)
    (fun j acc =>
       store acc (Z.of_nat (i + j))
         (Z.rem (at_ acc (Z.of_nat (i + j)) + a_i * at_ b (Z.of_nat j)) 256))
    result.

Definition multiply_data (a b : list Z) : list Z :=
  for_loop (length a)
    (fun i acc => multiply_row (at_ a (Z.of_nat i)) i b acc)
    (new_Uint8Array (length a + length b)).

Definition performHomomorphicMultiply (a b : Ciphertext) : Ciphertext :=
  {| data := multiply_data (data a) (data b);
     noise := (noise a * noise b * FHE_CONSTANTS.NOISE_GROWTH_FACTORS.MULTIPLY)%float;
     depth := Z.max (depth a) (depth b) + 1;
     size := size a + size b;
     bootstrapped := false; relinearized := false |}.

(** [{...ciphertext, noise: BASE_NOISE, depth: 0, bootstrapped: true}] *)
Definition bootstrapCiphertext (ciphertext : Ciphertext) : Ciphertext :=
  {| data := data ciphertext;
     noise := FHE_CONSTANTS.BASE_NOISE;
     depth := 0;
     size := size ciphertext;
     bootstrapped := true;
     relinearized := relinearized ciphertext |}.

Definition negateMockValue (value : Ciphertext) : Ciphertext :=
  let negated :=
    for_loop (length (data value))
      (fun i acc => store acc (Z.of_nat i) (Z.rem (256 - at_ (data value) (Z.of_nat i)) 256))
      (new_Uint8Array (length (data value))) in
  {| data := negated;
     noise := (noise value * FHE_CONSTANTS.NOISE_GROWTH_FACTORS.ADD)%float;
     depth := depth value; size := size value;
     bootstrapped := bootstrapped value; relinearized := relinearized value |}.

(** [amount % length] is NaN for an empty payload; the loop then has no iteration. *)
Definition rotateMockValue (value : Ciphertext) (amount : Z) : Ciphertext :=
  let len := Z.of_nat (length (data value)) in
  let normalizedAmount := Z.rem amount len in
  let rotated :=
    for_loop (length (data value))
      (fun i acc =>
         store acc (Z.rem (Z.of_nat i + normalizedAmount) len) (at_ (data value) (Z.of_nat i)))
      (new_Uint8Array (length (data value))) in
  {| data := rotated;
     noise := (noise value * FHE_CONSTANTS.NOISE_GROWTH_FACTORS.ROTATE)%float;
     depth := depth value; size := size value;
     bootstrapped := bootstrapped value; relinearized := relinearized value |}.

Definition relinearizeMockValue (value : Ciphertext) : Ciphertext :=
  {| data := data value; noise := noise value; depth := depth value;
     size := 2;
     bootstrapped := bootstrapped value;
     relinearized := true |}.

(** ** utils.ts: packing *)

Definition pack_step (st : option (list Z * nat)) (value : list Z) : option (list Z * nat) :=
  match st with
  | None => None
  | Some (packed, offset) =>
      let len := Z.of_nat (length value) in
      let o := Z.of_nat offset in
      let packed := store packed o (js_and (js_sar len 24) 255) in
      let packed := store packed (o + 1) (js_and (js_sar len 16) 255) in
      let packed := store packed (o + 2) (js_and (js_sar len 8) 255) in
      let packed := store packed (o + 3) (js_and len 255) in
      let offset := (offset + 4)%nat in
      match Uint8Array_set packed value offset with
      | None => None
      | Some packed => Some (packed, (offset + length value)%nat)
      end
  end.

(** [None] is the RangeError of [packed.set]. *)
Definition packValues (values : list (list Z)) : option (list Z) :=
  let totalLength := fold_left (fun sum v => (sum + length v + 4)%nat) values 0%nat in
  let packed := new_Uint8Array totalLength in
  fst <$> fold_left pack_step values (Some (packed, 0%nat)).

(** The [while] loop of unpackValues, bounded by [fuel] iterations; [None]
    when the loop has not left after [fuel] iterations. *)
Fixpoint unpackValues_loop (fuel : nat) (packed : list Z) (offset : Z)
    (values : list (list Z)) : option (list (list Z)) :=
  if offset <? Z.of_nat (length packed) then
    match fuel with
    | O => None
    | S fuel' =>
        let length_ :=
          js_or (js_or (js_or (js_shl (at_ packed offset) 24)
                              (js_shl (at_ packed (offset + 1)) 16))
                       (js_shl (at_ packed (offset + 2)) 8))
                (at_ packed (offset + 3)) in
        let offset := offset + 4 in
        let value := slice packed offset (offset + length_) in
        unpackValues_loop fuel' packed (offset + length_) (values ++ [value])
    end
  else Some values.

Definition unpackValues (fuel : nat) (packed : list Z) : option (list (list Z)) :=
  unpackValues_loop fuel packed 0 [].

(** The packed wire format in the words of the specification: for each value a
    4-byte big-endian length prefix followed by the raw bytes. *)
Definition be32 (n : Z) : list Z :=
  [(n / 2 ^ 24) mod 256; (n / 2 ^ 16) mod 256; (n / 2 ^ 8) mod 256; n mod 256].

Definition packed_format (values : list (list Z)) : list Z :=
  concat (map (fun v => be32 (Z.of_nat (length v)) ++ v) values).

(** ** utils.ts: the transport form of a ciphertext *)

(** [x || d] on an integer-valued number: 0 is the only falsy integer. *)
Definition or_else (x d : Z) : Z := if x =? 0 then d else x.

(** The record that serializeCiphertext turns into JSON text and base64; the
    text encoding itself is left out.  [noise] stands for a finite number:
    JSON writes NaN and the infinities as [null], which is left out, and the
    statements below do not depend on the noise that a deserialized
    ciphertext carries. *)
Module Serialized.
Record t := {
  data : list Z;
  noise : float;
  depth : Z;
  size : Z;
  bootstrapped : bool;
}.
End Serialized.

(** serializeCiphertext, up to the text encoding: the string it returns is
    [Encoded] of this record. *)
Definition serializeCiphertext (ciphertext : Ciphertext) : Serialized.t :=
  {| Serialized.data := data ciphertext;
     Serialized.noise := noise ciphertext;
     Serialized.depth := or_else (depth ciphertext) 0;
     Serialized.size := or_else (size ciphertext) 2;
     Serialized.bootstrapped := bootstrapped ciphertext || false |}.

(** A string handed to deserializeCiphertext: [Encoded parsed] is a string
    that decodes to a JSON object with the five fields [parsed] (the string
    that serializeCiphertext returns for its record is one), [Malformed] a
    string on which base64 decoding, UTF-8 decoding, [JSON.parse] or
    [arrayify] throws.  Strings that decode to other JSON values are left
    out. *)
Inductive Transport :=
| Encoded (parsed : Serialized.t)
| Malformed.

(** The object that the [return] of deserializeCiphertext builds. *)
Definition parsed_ciphertext (parsed : Serialized.t) : Ciphertext :=
  {| data := Serialized.data parsed;
     noise := Serialized.noise parsed;
     depth := Serialized.depth parsed;
     size := Serialized.size parsed;
     bootstrapped := Serialized.bootstrapped parsed;
     relinearized := false |}.

(** The [try] / [catch] of deserializeCiphertext. *)
Definition deserializeCiphertext (serialized : Transport) : Result Ciphertext :=
  match serialized with
  | Encoded parsed => Ok (parsed_ciphertext parsed)
  | Malformed => Throw "Failed to deserialize ciphertext"
  end.

(** [values.map(f)] for an [f] that may throw: the first exception ends the
    loop. *)
Fixpoint map_result {A B : Type} (f : A -> Result B) (values : list A) : Result (list B) :=
  match values with
  | [] => Ok []
  | value :: rest =>
      match f value with
      | Throw e => Throw e
      | Ok mapped =>
          match map_result f rest with
          | Throw e => Throw e
          | Ok others => Ok (mapped :: others)
          end
      end
  end.

(** ** service.ts: operations on ciphertexts *)

Module HomomorphicOperation.
Record t := {
  type : string;
  inputs : list Transport;
  autoBootstrap : bool;
  rotationAmount : option Z;
}.
End HomomorphicOperation.

Module FheComputationResult.
Record t := {
  result : Serialized.t;
  operationType : string;
  noiseLevel : float;
  bootstrapped : bool;
}.
End FheComputationResult.

(** What calculateNoiseLevel is called with: a ciphertext object, or (in
    encryptField) the serialized string, which has no [depth] property. *)
Inductive NoiseArg :=
| ArgCiphertext (ciphertext : Ciphertext)
| ArgString (serialized : Serialized.t).

Definition depth_property (a : NoiseArg) : option Z :=
  match a with
  | ArgCiphertext c => Some (depth c)
  | ArgString _ => None
  end.

Definition needsRelinearization (ciphertext : Ciphertext) : bool :=
  FHE_CONSTANTS.MAX_CIPHERTEXT_SIZE <? or_else (size ciphertext) 2.

Definition relinearize (ciphertext : Ciphertext) : Ciphertext :=
  relinearizeMockValue ciphertext.

(** The body of the loop of performMultiplication. *)
Definition multiply_step (result input : Ciphertext) : Ciphertext :=
  let result := performHomomorphicMultiply result input in
  if needsRelinearization result then relinearize result else result.

Definition performMultiplication (inputs : list Ciphertext) : Result Ciphertext :=
  match inputs with
  | first :: second :: rest => Ok (fold_left multiply_step (second :: rest) first)
  | _ => Throw "Multiplication requires at least 2 inputs"
  end.

(** The value of [result] after each iteration of that loop, in order. *)
Fixpoint multiply_trace (result : Ciphertext) (rest : list Ciphertext) : list Ciphertext :=
  match rest with
  | [] => []
  | input :: rest' =>
      let result := multiply_step result input in
      result :: multiply_trace result rest'
  end.

Definition performAddition (inputs : list Ciphertext) : Result Ciphertext :=
  match inputs with
  | first :: second :: rest => Ok (fold_left performHomomorphicAdd (second :: rest) first)
  | _ => Throw "Addition requires at least 2 inputs"
  end.

Definition performSubtraction (inputs : list Ciphertext) : Result Ciphertext :=
  match inputs with
  | [a; b] => Ok (performHomomorphicAdd a (negateMockValue b))
  | _ => Throw "Subtraction requires exactly 2 inputs"
  end.

Definition performNegation (input : option Ciphertext) : Result Ciphertext :=
  match input with
  | Some c => Ok (negateMockValue c)
  | None => Throw "TypeError: Cannot read properties of undefined"
  end.

Definition performRotation (input : option Ciphertext) (rotationAmount : Z) : Result Ciphertext :=
  match input with
  | Some c => Ok (rotateMockValue c rotationAmount)
  | None => Throw "TypeError: Cannot read properties of undefined"
  end.

Definition performBootstrapping (input : Ciphertext) : Ciphertext :=
  bootstrapCiphertext input.

Section Service.
Context `{Platform}.

Definition calculateNoiseLevel (ciphertext : NoiseArg) (rng : Rng) : float * Rng :=
  let '(u, rng) := Math_random rng in
  let baseNoise := (u * 50)%float in
  let depthFactor :=
    match depth_property ciphertext with
    | Some d => or_else d 1
    | None => 1
    end in
  ((baseNoise * number_of_Z depthFactor)%float, rng).

(** performHomomorphicOperation from the noise check on (after the [switch]). *)
Definition report_operation (operationType : string) (autoBootstrap : bool)
    (result : Ciphertext) (rng : Rng) : FheComputationResult.t * Rng :=
  let '(noiseLevel, rng) := calculateNoiseLevel (ArgCiphertext result) rng in
  let needsBootstrapping := (FHE_CONSTANTS.MAX_NOISE_LEVEL <? noiseLevel)%float in
  let result :=
    if needsBootstrapping && autoBootstrap then performBootstrapping result else result in
  let '(noiseLevel, rng) := calculateNoiseLevel (ArgCiphertext result) rng in
  ({| FheComputationResult.result := serializeCiphertext result;
      FheComputationResult.operationType := operationType;
      FheComputationResult.noiseLevel := noiseLevel;
      FheComputationResult.bootstrapped := needsBootstrapping && autoBootstrap |}, rng).

(** performHomomorphicOperation from the deserialization of the inputs, all
    of them and before the operation type is looked at, to the end of the
    [switch].  [bootstrap] of a missing input builds an object without
    [data]; it survives the noise check (one random draw) and fails in
    serializeCiphertext: [inr]. *)
Definition dispatch_operation (operation : HomomorphicOperation.t)
  : Result Ciphertext + unit :=
  match map_result deserializeCiphertext (HomomorphicOperation.inputs operation) with
  | Throw e => inl (Throw e)
  | Ok inputs =>
      let type := HomomorphicOperation.type operation in
      if decide (type = "add") then inl (performAddition inputs)
      else if decide (type = "multiply") then inl (performMultiplication inputs)
      else if decide (type = "subtract") then inl (performSubtraction inputs)
      else if decide (type = "negate") then inl (performNegation (head inputs))
      else if decide (type = "rotate") then
        inl (performRotation (head inputs)
               (match HomomorphicOperation.rotationAmount operation with
                | Some amount => or_else amount 1
                | None => 1
                end))
      else if decide (type = "bootstrap") then
        match head inputs with
        | Some c => inl (Ok (performBootstrapping c))
        | None => inr tt
        end
      else inl (Throw ("Unsupported operation: " +:+ type))
  end.

(** [walletAddress] is what the user directory knows of the user; key
    custody is a collaborator and is left out. *)
Definition performHomomorphicOperation (walletAddress : option string)
    (operation : HomomorphicOperation.t) (rng : Rng)
  : Result FheComputationResult.t * Rng :=
  match walletAddress with
  | None => (Throw "User wallet not found", rng)
  | Some _ =>
      match dispatch_operation operation with
      | inl (Throw e) => (Throw e, rng)
      | inl (Ok result) =>
          let '(r, rng) :=
            report_operation (HomomorphicOperation.type operation)
              (HomomorphicOperation.autoBootstrap operation) result rng in
          (Ok r, rng)
      | inr _ =>
          let '(_, rng) := Math_random rng in
          (Throw "TypeError: Cannot read properties of undefined", rng)
      end
  end.

(** encryptField: the serialized ciphertext and the [noiseLevel] of its
    metadata, for an already prepared plaintext. *)
Definition performFheEncryption (value : list Z) (rng : Rng) : Result Serialized.t * Rng :=
  match encryptValue value FHE_CONSTANTS.noiseStandardDeviation rng with
  | (Ok ciphertext, rng) => (Ok (serializeCiphertext ciphertext), rng)
  | (Throw e, rng) => (Throw e, rng)
  end.

Definition encryptField (walletAddress : option string) (plaintext : list Z) (rng : Rng)
  : Result (Serialized.t * float) * Rng :=
  match walletAddress with
  | None => (Throw "User wallet not found", rng)
  | Some _ =>
      match performFheEncryption plaintext rng with
      | (Ok encrypted, rng) =>
          let '(noiseLevel, rng) := calculateNoiseLevel (ArgString encrypted) rng in
          (Ok (encrypted, noiseLevel), rng)
      | (Throw e, rng) => (Throw e, rng)
      end
  end.
End Service.

(** ** service.ts: the circuit compiler *)

Module CircuitGate.
Record t := {
  operation : string;
  inputs : list string;
  output : string;
  parameters : option string;
}.
End CircuitGate.

Module FheCircuit.
Record t := {
  name : string;
  inputs : list string;
  outputs : list string;
  gates : list CircuitGate.t;
}.
End FheCircuit.

(** The numbers that calculateCircuitDepth computes with: integers, and the
    [-Infinity] that [Math.max()] of no argument returns. *)
Inductive DepthValue :=
| NegInfinity
| Finite (z : Z).

Definition max2 (a b : DepthValue) : DepthValue :=
  match a, b with
  | NegInfinity, _ => b
  | _, NegInfinity => a
  | Finite x, Finite y => Finite (Z.max x y)
  end.

(** [Math.max(...values)] *)
Definition Math_max (values : list DepthValue) : DepthValue :=
  fold_left max2 values NegInfinity.

(** [value + 1] *)
Definition plus_one (value : DepthValue) : DepthValue :=
  match value with
  | NegInfinity => NegInfinity
  | Finite z => Finite (z + 1)
  end.

(** [depths.get(i) || 0] *)
Definition get_or_zero (depths : gmap string DepthValue) (i : string) : DepthValue :=
  match depths !! i with
  | None => Finite 0
  | Some (Finite 0) => Finite 0
  | Some value => value
  end.

Definition gate_depth (depths : gmap string DepthValue) (gate : CircuitGate.t) : DepthValue :=
  let inputDepths := map (get_or_zero depths) (CircuitGate.inputs gate) in
  if decide (CircuitGate.operation gate = "multiply")
  then plus_one (Math_max inputDepths)
  else Math_max inputDepths.

Definition depth_walk (st : DepthValue * gmap string DepthValue) (gate : CircuitGate.t)
  : DepthValue * gmap string DepthValue :=
  let '(maxDepth, depths) := st in
  let gateDepth := gate_depth depths gate in
  (max2 maxDepth gateDepth, <[CircuitGate.output gate := gateDepth]> depths).

Definition seed_inputs (inputs : list string) : gmap string DepthValue :=
  fold_left (fun depths input => <[input := Finite 0]> depths) inputs ∅.

Definition calculateCircuitDepth (circuit : FheCircuit.t) : DepthValue :=
  fst (fold_left depth_walk (FheCircuit.gates circuit)
         (Finite 0, seed_inputs (FheCircuit.inputs circuit))).

Definition estimateNoiseGrowth (circuit : FheCircuit.t) : float :=
  fold_left
    (fun noiseEstimate gate =>
       let operation := CircuitGate.operation gate in
       if decide (operation = "multiply")
       then (noiseEstimate * FHE_CONSTANTS.NOISE_GROWTH_FACTORS.MULTIPLY)%float
       else if decide (operation = "add")
       then (noiseEstimate * FHE_CONSTANTS.NOISE_GROWTH_FACTORS.ADD)%float
       else if decide (operation = "rotate")
       then (noiseEstimate * FHE_CONSTANTS.NOISE_GROWTH_FACTORS.ROTATE)%float
       else noiseEstimate)
    (FheCircuit.gates circuit) FHE_CONSTANTS.BASE_NOISE.

Module PlanOperation.
Record t := {
  type : string;
  inputs : list string;
  output : string;
  parameters : option string;
}.
End PlanOperation.

Module ExecutionPlan.
Record t := {
  operations : list PlanOperation.t;
  inputCount : nat;
  outputCount : nat;
  depth : DepthValue;
  estimatedNoiseGrowth : float;
}.
End ExecutionPlan.







(** ** The specification's own descriptions, for comparison *)

(** Elementwise sum modulo 256 over the longer length, the shorter payload
    padded with zeros. *)
Definition zero_pad (n : nat) (l : list Z) : list Z := l ++ replicate (n - length l) 0.

Definition padded_sum (a b : list Z) : list Z :=
  let n := Nat.max (length a) (length b) in
  zip_with (fun x y => (x + y) mod 256) (zero_pad n a) (zero_pad n b).

(** Discrete convolution reduced modulo 256, of length [len a + len b]. *)
Definition sum_to (n : nat) (f : nat -> Z) : Z :=
  fold_left (fun acc i => acc + f i) (seq 0 n) 0.

Definition convolution_coefficient (a b : list Z) (k : nat) : Z :=
  sum_to (S k) (fun i => at_ a (Z.of_nat i) * at_ b (Z.of_nat (k - i))).

Definition convolution (a b : list Z) : list Z :=
  map (fun k => convolution_coefficient a b k mod 256) (seq 0 (length a + length b)).

(** The term that row [i] of the product adds to coefficient [k]. *)
Definition row_term (a b : list Z) (k i : nat) : Z :=
  if decide (i <= k)%nat then default 0 (a !! i) * default 0 (b !! (k - i)%nat) else 0.


Definition gate (operation : string) (inputs : list string) (output : string)
  : CircuitGate.t :=
  {| CircuitGate.operation := operation;
     CircuitGate.inputs := inputs;
     CircuitGate.output := output;
     CircuitGate.parameters := None |}.

(** ** service.ts: the circuit executor *)

(** loadCircuitDefinition ignores the identifier. *)
Definition loadCircuitDefinition (circuitId : string) : FheCircuit.t :=
  {| FheCircuit.name := "mock-circuit";
     FheCircuit.inputs := ["input1"; "input2"];
     FheCircuit.outputs := ["output"];
     FheCircuit.gates := [gate "add" ["input1"; "input2"] "output"] |}.

(** The outputs object, as the list of its assignments in order; reading an
    unbound wire gives [undefined], which serializeCiphertext cannot read. *)
Fixpoint collectOutputs (outputs : list string) (wireValues : gmap string Ciphertext)
  : Result (list (string * Serialized.t)) :=
  match outputs with
  | [] => Ok []
  | outputName :: rest =>
      match wireValues !! outputName with
      | None => Throw "TypeError: Cannot read properties of undefined"
      | Some value =>
          match collectOutputs rest wireValues with
          | Ok collected => Ok ((outputName, serializeCiphertext value) :: collected)
          | Throw e => Throw e
          end
      end
  end.

(** The loop of executeCircuit over [Object.entries(encryptedInputs)]: every
    entry is deserialized, whatever its name. *)
Fixpoint loadInputs (encryptedInputs : list (string * Transport))
    (wireValues : gmap string Ciphertext) : Result (gmap string Ciphertext) :=
  match encryptedInputs with
  | [] => Ok wireValues
  | (inputName, encryptedValue) :: rest =>
      match deserializeCiphertext encryptedValue with
      | Throw e => Throw e
      | Ok value => loadInputs rest (<[inputName := value]> wireValues)
      end
  end.

Section Executor.
Context `{Platform}.

(** [systemWallet] is what the user directory knows of the user 'system'. *)
Definition executeGate (systemWallet : option string) (gate : CircuitGate.t)
    (inputs : list (option Ciphertext)) (rng : Rng) : Result Ciphertext * Rng :=
  match mapM id inputs with
  | None => (Throw "TypeError: Cannot read properties of undefined", rng)
  | Some inputs =>
      let operation :=
        {| HomomorphicOperation.type := CircuitGate.operation gate;
           HomomorphicOperation.inputs :=
             (fun i => Encoded (serializeCiphertext i)) <$> inputs;
           HomomorphicOperation.autoBootstrap := true;
           HomomorphicOperation.rotationAmount := None |} in
      match performHomomorphicOperation systemWallet operation rng with
      | (Ok result, rng) =>
          (deserializeCiphertext (Encoded (FheComputationResult.result result)), rng)
      | (Throw e, rng) => (Throw e, rng)
      end
  end.

Fixpoint executeGates (systemWallet : option string) (gates : list CircuitGate.t)
    (wireValues : gmap string Ciphertext) (rng : Rng)
  : Result (gmap string Ciphertext) * Rng :=
  match gates with
  | [] => (Ok wireValues, rng)
  | gate :: rest =>
      let inputs := (fun i => wireValues !! i) <$> CircuitGate.inputs gate in
      match executeGate systemWallet gate inputs rng with
      | (Ok result, rng) =>
          executeGates systemWallet rest (<[CircuitGate.output gate := result]> wireValues) rng
      | (Throw e, rng) => (Throw e, rng)
      end
  end.

Definition executeCircuit (walletAddress systemWallet : option string) (circuitId : string)
    (encryptedInputs : list (string * Transport)) (rng : Rng)
  : Result (list (string * Serialized.t)) * Rng :=
  match walletAddress with
  | None => (Throw "User wallet not found", rng)
  | Some _ =>
      let circuit := loadCircuitDefinition circuitId in
      match loadInputs encryptedInputs ∅ with
      | Throw e => (Throw e, rng)
      | Ok wireValues =>
          match executeGates systemWallet (FheCircuit.gates circuit) wireValues rng with
          | (Ok wireValues, rng) =>
              (collectOutputs (FheCircuit.outputs circuit) wireValues, rng)
          | (Throw e, rng) => (Throw e, rng)
          end
      end
  end.
End Executor.

(** An inputs object all of whose strings deserialize. *)
Definition encoded_inputs (parsed : list (string * Serialized.t))
  : list (string * Transport) :=
  (fun entry => (entry.1, Encoded entry.2)) <$> parsed.



(** The length that unpackValues reads from four prefix bytes. *)
Definition join_prefix (h0 h1 h2 h3 : Z) : Z :=
  js_or (js_or (js_or (js_shl h0 24) (js_shl h1 16)) (js_shl h2 8)) h3.

(** A buffer whose length fits a signed 32-bit prefix. *)
Definition short_buffer (v : list Z) : Prop := Z.of_nat (length v) < 2 ^ 31.

(** A freshly encrypted ciphertext with the given payload. *)
Definition fresh_ciphertext (payload : list Z) : Ciphertext :=
  {| data := payload; noise := FHE_CONSTANTS.BASE_NOISE; depth := 0; size := 2;
     bootstrapped := false; relinearized := false |}.

(** ** utils.ts: the noise estimator *)

Module utils.
(** [toUpperCase] on the ASCII letters.  The factor it selects is only used for
    the four operation names of the [switch], which are ASCII. *)
Definition upper_ascii (c : Ascii.ascii) : Ascii.ascii :=
  let n := Ascii.nat_of_ascii c in
  if (97 <=? n)%nat && (n <=? 122)%nat then Ascii.ascii_of_nat (n - 32) else c.

Fixpoint toUpperCase (s : string) : string :=
  match s with
  | EmptyString => EmptyString
  | String c rest => String (upper_ascii c) (toUpperCase rest)
  end.

(** [FHE_CONSTANTS.NOISE_GROWTH_FACTORS[key]] *)
Definition NOISE_GROWTH_FACTORS (key : string) : option float :=
  if decide (key = "ADD") then Some FHE_CONSTANTS.NOISE_GROWTH_FACTORS.ADD
  else if decide (key = "MULTIPLY") then Some FHE_CONSTANTS.NOISE_GROWTH_FACTORS.MULTIPLY
  else if decide (key = "ROTATE") then Some FHE_CONSTANTS.NOISE_GROWTH_FACTORS.ROTATE
  else if decide (key = "NEGATE") then Some FHE_CONSTANTS.NOISE_GROWTH_FACTORS.NEGATE
  else if decide (key = "BOOTSTRAP") then Some FHE_CONSTANTS.NOISE_GROWTH_FACTORS.BOOTSTRAP
  else None.

(** [x || 1] on a number or [undefined]. *)
Definition or_one (x : option float) : float :=
  match x with
  | Some f => if (f =? 0)%float || is_nan f then 1%float else f
  | None => 1%float
  end.

(** [Math.max] of two numbers: NaN wins, and [+0] is above [-0]. *)
Definition number_max (a b : float) : float :=
  if is_nan a || is_nan b then nan
  else if (a <? b)%float then b
  else if (b <? a)%float then a
  else if get_sign a then b else a.

(** [Math.max(...values)] *)
Definition Math_max_numbers (values : list float) : float :=
  fold_left number_max values neg_infinity.

Definition estimateNoiseGrowth (operation : string) (inputNoise : list float) : float :=
  let factor := or_one (NOISE_GROWTH_FACTORS (toUpperCase operation)) in
  let maxInput := Math_max_numbers inputNoise in
  if decide (operation = "add") then (maxInput + factor)%float
  else if decide (operation = "subtract") then (maxInput + factor)%float
  else if decide (operation = "multiply")
  then (fold_left (fun a b => (a * b)%float) inputNoise 1%float * factor)%float
  else if decide (operation = "rotate") then (maxInput * factor)%float
  else maxInput.
End utils.

(** ** service.ts: the key cache *)

Inductive FheScheme := TFHE | CKKS | BGV | BFV.

Definition scheme_value (scheme : FheScheme) : string :=
  match scheme with
  | TFHE => "tfhe"
  | CKKS => "ckks"
  | BGV => "bgv"
  | BFV => "bfv"
  end.

Module FheKeyPair.
Record t := {
  publicKey : string;
  privateKey : string;
  evaluationKey : string;
  scheme : FheScheme;
  generatedAt : Z;
}.
End FheKeyPair.

(** [`${walletAddress}-${scheme}`] *)
Definition cacheKey (walletAddress : string) (scheme : FheScheme) : string :=
  walletAddress +:+ "-" +:+ scheme_value scheme.

(** What one call of getOrGenerateKeys does: the key pair it returns, the
    cache it leaves, whether it asked the custodian (retrieveUserKeys) and what
    it handed to storeUserKeys. *)
Module KeyLookup.
Record t := {
  keyPair : FheKeyPair.t;
  keyCache : gmap string FheKeyPair.t;
  retrieved : bool;
  stored : option FheKeyPair.t;
}.
End KeyLookup.

(** [existingKeys] is the answer of retrieveUserKeys (it is asked for the
    wallet alone), [newKeys] the pair that generateNewKeys would return; each
    is used only where the source calls the function. *)
Definition getOrGenerateKeys (keyCache : gmap string FheKeyPair.t)
    (walletAddress : string) (scheme : FheScheme)
    (existingKeys : option FheKeyPair.t) (newKeys : FheKeyPair.t) : KeyLookup.t :=
  let key := cacheKey walletAddress scheme in
  match keyCache !! key with
  | Some cached =>
      {| KeyLookup.keyPair := cached; KeyLookup.keyCache := keyCache;
         KeyLookup.retrieved := false; KeyLookup.stored := None |}
  | None =>
      match existingKeys with
      | Some existing =>
          {| KeyLookup.keyPair := existing;
             KeyLookup.keyCache := <[key := existing]> keyCache;
             KeyLookup.retrieved := true; KeyLookup.stored := None |}
      | None =>
          {| KeyLookup.keyPair := newKeys;
             KeyLookup.keyCache := <[key := newKeys]> keyCache;
             KeyLookup.retrieved := true; KeyLookup.stored := Some newKeys |}
      end
  end.

(** ** Descriptions used in the statements below *)

(** The sum of the bytes at position [k] of a list of payloads. *)
Definition column_sum (payloads : list (list Z)) (k : nat) : Z :=
  foldr Z.add 0 ((fun payload => default 0 (payload !! k)) <$> payloads).

(** The longest length among payloads. *)
Definition longest (payloads : list (list Z)) : nat :=
  foldr Nat.max 0%nat (length <$> payloads).

(** The payload moved right by [r] places, cyclically. *)
Definition rotate_right (r : Z) (payload : list Z) : list Z :=
  (fun k => default 0 (payload !! Z.to_nat ((Z.of_nat k - r) mod Z.of_nat (length payload))))
    <$> seq 0 (length payload).

(** The number of multiply gates. *)
Definition multiply_count (gates : list CircuitGate.t) : Z :=
  Z.of_nat (length (filter (fun g => CircuitGate.operation g = "multiply") gates)).

(** The gates that estimateNoiseGrowth of the service counts. *)
Definition counted_gate (g : CircuitGate.t) : Prop :=
  CircuitGate.operation g = "multiply" \/ CircuitGate.operation g = "add"
  \/ CircuitGate.operation g = "rotate".

#[global] Instance counted_gate_dec (g : CircuitGate.t) : Decision (counted_gate g).
Proof. unfold counted_gate. apply _. Defined.

(** A gate depth that is [-Infinity] or an integer from 0 to [bound]. *)
Definition depth_within (bound : Z) (value : DepthValue) : Prop :=
  match value with
  | NegInfinity => True
  | Finite z => 0 <= z <= bound
  end.

(** A platform with constant draws, on which the definitions can be run. *)
Definition constant_platform : Platform :=
  {| Rng := nat;
     Math_random := fun n => (0.5%float, S n);
     Math_log := fun x => (x - 1)%float;
     Math_cos := fun x => (1 - x * x / 2)%float;
     Math_floor := fun x => x;
     number_rem := fun x y => x;
     keccak256 := fun _ => replicate 32 0 |}.

(** * Proofs *)

(** ** Typed-array reads, writes and loops *)

Lemma at_nat (a : list Z) (i : nat) : at_ a (Z.of_nat i) = default 0 (a !! i).
Proof.
  unfold at_. destruct (Z.ltb_spec (Z.of_nat i) 0) as [Hneg|_]; [lia|].
  by rewrite Nat2Z.id.
Qed.

Lemma store_nat (a : list Z) (i : nat) (v : Z) :
  store a (Z.of_nat i) v = <[i := ToUint8 v]> a.
Proof.
  unfold store. rewrite Nat2Z.id.
  destruct (Z.leb_spec 0 (Z.of_nat i)); [|lia].
  destruct (Z.ltb_spec (Z.of_nat i) (Z.of_nat (length a))); simpl; [done|].
  symmetry. apply list_insert_ge. lia.
Qed.

Lemma length_store (a : list Z) (i v : Z) : length (store a i v) = length a.
Proof. unfold store. case_match; [apply length_insert | done]. Qed.

Lemma for_loop_0 {S : Type} (body : nat -> S -> S) (s : S) : for_loop 0 body s = s.
Proof. reflexivity. Qed.

Lemma for_loop_S {S : Type} (n : nat) (body : nat -> S -> S) (s : S) :
  for_loop (Datatypes.S n) body s = body n (for_loop n body s).
Proof. unfold for_loop. by rewrite seq_S, fold_left_app. Qed.

Lemma ToUint8_byte (z : Z) : is_byte (ToUint8 z).
Proof. unfold is_byte, ToUint8. apply Z.mod_pos_bound. lia. Qed.

Lemma ToUint8_id (z : Z) : is_byte z -> ToUint8 z = z.
Proof. unfold is_byte, ToUint8. intros. by apply Z.mod_small. Qed.

Lemma ToInt32_id (z : Z) : - 2 ^ 31 <= z < 2 ^ 31 -> ToInt32 z = z.
Proof.
  intros Hz. unfold ToInt32.
  destruct (Z_lt_le_dec z 0) as [Hneg|Hpos].
  - replace (z mod 2 ^ 32) with (z + 2 ^ 32).
    + destruct (Z.ltb_spec (z + 2 ^ 32) (2 ^ 31)); lia.
    + apply Z.mod_unique with (q := -1); lia.
  - rewrite Z.mod_small by lia.
    destruct (Z.ltb_spec z (2 ^ 31)); lia.
Qed.

Lemma log2_below (x n : Z) : 0 < n -> 0 <= x < 2 ^ n -> Z.log2 x < n.
Proof.
  intros Hn Hx. destruct (Z.eq_dec x 0) as [->|Hne]; [done|].
  apply Z.log2_lt_pow2; lia.
Qed.

Lemma below_pow2 (x n : Z) : 0 <= x -> Z.log2 x < n -> x < 2 ^ n.
Proof.
  intros Hx Hlog. destruct (Z.eq_dec x 0) as [->|Hne].
  - apply Z.pow_pos_nonneg; [lia|]. pose proof (Z.log2_nonneg 0). lia.
  - apply Z.log2_lt_pow2; lia.
Qed.

Lemma lxor_byte (a b : Z) : is_byte a -> is_byte b -> is_byte (Z.lxor a b).
Proof.
  unfold is_byte. intros [Ha0 Ha] [Hb0 Hb].
  assert (H0 : 0 <= Z.lxor a b) by (apply Z.lxor_nonneg; tauto).
  split; [done|].
  change 256 with (2 ^ 8). apply below_pow2; [done|].
  pose proof (Z.log2_lxor a b Ha0 Hb0) as Hlog.
  pose proof (log2_below a 8 ltac:(lia) ltac:(lia)).
  pose proof (log2_below b 8 ltac:(lia) ltac:(lia)).
  lia.
Qed.

Lemma js_xor_byte (a b : Z) : is_byte a -> is_byte b -> js_xor a b = Z.lxor a b.
Proof.
  unfold is_byte, js_xor. intros Ha Hb. rewrite !ToInt32_id; [done|lia..].
Qed.

Lemma xor_twice (v n : Z) :
  is_byte v -> is_byte n -> ToUint8 (js_xor (ToUint8 (js_xor v n)) n) = v.
Proof.
  intros Hv Hn.
  rewrite (js_xor_byte v n) by done.
  rewrite (ToUint8_id (Z.lxor v n)) by by apply lxor_byte.
  rewrite js_xor_byte by (done || by apply lxor_byte).
  rewrite Z.lxor_assoc, Z.lxor_nilpotent, Z.lxor_0_r.
  by apply ToUint8_id.
Qed.

(** ** Decryption after encryption *)

Section CodecProofs.
Context `{Platform}.

Lemma ToUint8_number_byte (f : float) : is_byte (ToUint8_number f).
Proof.
  unfold ToUint8_number.
  destruct (Prim2SF f); try (unfold is_byte; lia); apply ToUint8_byte.
Qed.

Lemma generateNoise_loop_length (n : nat) (stdDev : float) (rng : Rng) :
  length (fst (generateNoise_loop n stdDev rng)) = n.
Proof.
  revert rng. induction n as [|n IH]; intros rng; simpl; [done|].
  destruct (Math_random rng) as [u1 rng1].
  destruct (Math_random rng1) as [u2 rng2].
  specialize (IH rng2).
  destruct (generateNoise_loop n stdDev rng2) as [rest rng3].
  simpl in *. by rewrite IH.
Qed.

Lemma generateNoise_loop_bytes (n : nat) (stdDev : float) (rng : Rng) :
  Forall is_byte (fst (generateNoise_loop n stdDev rng)).
Proof.
  revert rng. induction n as [|n IH]; intros rng; simpl; [constructor|].
  destruct (Math_random rng) as [u1 rng1].
  destruct (Math_random rng1) as [u2 rng2].
  specialize (IH rng2).
  destruct (generateNoise_loop n stdDev rng2) as [rest rng3].
  simpl in *. constructor; [apply ToUint8_number_byte | done].
Qed.

Lemma length_xor_keystream (src noise : list Z) (n : nat) (dst : list Z) :
  length (xor_keystream src noise n dst) = length dst.
Proof.
  unfold xor_keystream. induction n as [|n IH]; [done|].
  by rewrite for_loop_S, length_store.
Qed.

Lemma xor_keystream_lookup (src noise : list Z) (n : nat) (dst : list Z) (k : nat) :
  xor_keystream src noise n dst !! k =
    if decide (k < n ∧ k < length dst)%nat
    then Some (ToUint8 (js_xor (default 0 (src !! k))
                               (default 0 (noise !! (k mod length noise)%nat))))
    else dst !! k.
Proof.
  induction n as [|n IH].
  - unfold xor_keystream. rewrite for_loop_0. case_decide; [lia|done].
  - unfold xor_keystream in *. rewrite for_loop_S, store_nat, !at_nat.
    rewrite list_lookup_insert, IH.
    fold (xor_keystream src noise n dst). rewrite length_xor_keystream.
    repeat case_decide; try lia; try done.
    destruct_and!. by subst.
Qed.

Lemma lookup_byte (l : list Z) (k : nat) :
  Forall is_byte l -> is_byte (default 0 (l !! k)).
Proof.
  intros Hl. destruct (l !! k) as [x|] eqn:E; simpl.
  - exact (Forall_lookup_1 _ _ _ _ Hl E).
  - unfold is_byte. lia.
Qed.

(** C1. For every plaintext byte sequence [m] and standard deviation
    [sigma]: when the keystream regenerated by decryptValue is the one
    encryptValue used (the same noise seed) and the digest has its 32 bytes,
    encryptValue returns a ciphertext and decryptValue of it returns [m]. *)
Theorem decryptValue_encryptValue (m : list Z) (sigma : float) (rng_enc rng_dec : Rng) :
  Forall is_byte m ->
  (forall x, length (keccak256 x) = 32%nat) ->
  fst (generateNoise sigma rng_dec) = fst (generateNoise sigma rng_enc) ->
  exists c, fst (encryptValue m sigma rng_enc) = Ok c
            /\ length (data c) = (length m + 32)%nat
            /\ length (fst (generateNoise (noise c) rng_dec)) = 32%nat
            /\ fst (decryptValue c rng_dec) = Ok m.
Proof.
  intros Hm Hdigest Hseed.
  unfold encryptValue.
  pose proof (generateNoise_loop_length 32 sigma rng_enc) as Hlen.
  pose proof (generateNoise_loop_bytes 32 sigma rng_enc) as Hbytes.
  fold (generateNoise sigma rng_enc) in Hlen, Hbytes.
  destruct (generateNoise sigma rng_enc) as [ks rng1] eqn:Eenc. simpl in *.
  set (body := xor_keystream m ks (length m) (new_Uint8Array (length m + 32))).
  assert (Hbody : length body = (length m + 32)%nat).
  { unfold body, new_Uint8Array. by rewrite length_xor_keystream, length_replicate. }
  unfold Uint8Array_set. rewrite Hdigest.
  case_decide; [|lia].
  eexists. split; [reflexivity|].
  set (payload := take (length m) body ++ keccak256 (m ++ ks) ++ drop (length m + 32) body).
  assert (Hpayload : length payload = (length m + 32)%nat).
  { unfold payload. rewrite !length_app, length_take, length_drop, Hdigest. lia. }
  split; [exact Hpayload|].
  split; [apply generateNoise_loop_length|].
  unfold decryptValue. simpl. fold payload.
  rewrite Hpayload.
  destruct (Z.ltb_spec (Z.of_nat (length m + 32) - 32) 0) as [|_]; [lia|].
  destruct (generateNoise sigma rng_dec) as [ks' rng2]. simpl in Hseed. subst ks'.
  simpl. f_equal.
  replace (Z.to_nat (Z.of_nat (length m + 32) - 32)) with (length m) by lia.
  apply list_eq. intros k.
  rewrite xor_keystream_lookup. unfold new_Uint8Array. rewrite length_replicate.
  case_decide as Hk.
  - destruct Hk as [Hk _].
    assert (Hpk : payload !! k = body !! k).
    { unfold payload. rewrite lookup_app_l by (rewrite length_take; lia).
      by rewrite lookup_take_lt. }
    rewrite Hpk. unfold body, new_Uint8Array. rewrite xor_keystream_lookup.
    rewrite length_replicate. case_decide; [|lia]. simpl.
    destruct (lookup_lt_is_Some_2 m k Hk) as [v Hv]. rewrite Hv. simpl.
    f_equal. apply xor_twice.
    + exact (Forall_lookup_1 _ _ _ _ Hm Hv).
    + by apply lookup_byte.
  - assert (length m <= k)%nat by lia.
    rewrite (lookup_ge_None_2 m k) by done.
    apply lookup_replicate_None. lia.
Qed.
End CodecProofs.

(** ** Addition and bootstrap *)

Lemma rem_then_wrap (x : Z) : ToUint8 (Z.rem x 256) = x mod 256.
Proof.
  unfold ToUint8.
  rewrite (Z.quot_rem' x 256) at 2.
  rewrite Z.add_comm, Z.mul_comm, Z_mod_plus_full. done.
Qed.

(** A loop that fills a fresh array position by position. *)
Lemma tabulate_lookup (f : nat -> Z) (n m k : nat) :
  for_loop n (fun i acc => store acc (Z.of_nat i) (f i)) (new_Uint8Array m) !! k =
    if decide (k < n ∧ k < m)%nat then Some (ToUint8 (f k)) else new_Uint8Array m !! k.
Proof.
  assert (Hlen : forall j,
    length (for_loop j (fun i acc => store acc (Z.of_nat i) (f i)) (new_Uint8Array m)) = m).
  { induction j as [|j IH]; [apply length_replicate|].
    by rewrite for_loop_S, length_store. }
  induction n as [|n IH].
  - rewrite for_loop_0. case_decide; [lia|done].
  - rewrite for_loop_S, store_nat, list_lookup_insert, IH, Hlen.
    repeat case_decide; try lia; try done.
    destruct_and!. by subst.
Qed.

Lemma zero_pad_lookup (n : nat) (l : list Z) (k : nat) :
  zero_pad n l !! k =
    if decide (k < length l)%nat then l !! k
    else if decide (k < n)%nat then Some 0 else None.
Proof.
  unfold zero_pad. case_decide.
  - by apply lookup_app_l.
  - rewrite lookup_app_r by lia. case_decide.
    + apply lookup_replicate_2. lia.
    + apply lookup_replicate_None. lia.
Qed.

Lemma performHomomorphicAdd_data (a b : Ciphertext) :
  data (performHomomorphicAdd a b) = padded_sum (data a) (data b).
Proof.
  unfold performHomomorphicAdd, padded_sum. simpl.
  apply list_eq. intros k.
  unfold new_Uint8Array at 1. rewrite length_replicate.
  rewrite tabulate_lookup, lookup_zip_with, !zero_pad_lookup, !at_nat, rem_then_wrap.
  unfold new_Uint8Array.
  destruct (Nat.ltb_spec k (length (data a))) as [Ha|Ha];
    destruct (Nat.ltb_spec k (length (data b))) as [Hb|Hb];
    repeat case_decide; try lia.
  - destruct (lookup_lt_is_Some_2 _ _ Ha) as [x ->].
    destruct (lookup_lt_is_Some_2 _ _ Hb) as [y ->]. reflexivity.
  - destruct (lookup_lt_is_Some_2 _ _ Ha) as [x ->]. simpl.
    by rewrite Z.add_0_r.
  - destruct (lookup_lt_is_Some_2 _ _ Hb) as [y ->]. reflexivity.
  - simpl. apply lookup_replicate_None. lia.
Qed.

Lemma length_padded_sum (a b : list Z) :
  length (padded_sum a b) = Nat.max (length a) (length b).
Proof.
  unfold padded_sum, zero_pad.
  rewrite length_zip_with, !length_app, !length_replicate. lia.
Qed.

(** C3. For every two ciphertexts [a] and [b], the sum has the payload that
    the specification describes (the length of the longer operand, the
    elementwise sum modulo 256 with the shorter payload padded by zeros), the
    noise [a.noise + b.noise + 1.1], the depth [max(a.depth, b.depth)] and the
    componentCount of [a]. *)
Theorem performHomomorphicAdd_contract (a b : Ciphertext) :
  data (performHomomorphicAdd a b) = padded_sum (data a) (data b)
  /\ length (data (performHomomorphicAdd a b))
     = Nat.max (length (data a)) (length (data b))
  /\ (forall k : nat, (k < Nat.max (length (data a)) (length (data b)))%nat ->
        data (performHomomorphicAdd a b) !! k
        = Some ((default 0 (data a !! k) + default 0 (data b !! k)) mod 256))
  /\ noise (performHomomorphicAdd a b) = (noise a + noise b + 1.1)%float
  /\ depth (performHomomorphicAdd a b) = Z.max (depth a) (depth b)
  /\ size (performHomomorphicAdd a b) = size a.
Proof.
  split; [apply performHomomorphicAdd_data|].
  split; [rewrite performHomomorphicAdd_data; apply length_padded_sum|].
  split; [|done].
  intros k Hk. rewrite performHomomorphicAdd_data. unfold padded_sum.
  rewrite lookup_zip_with, !zero_pad_lookup.
  repeat case_decide; try lia;
    repeat match goal with
    | Hlt : (k < length ?l)%nat |- _ =>
        destruct (lookup_lt_is_Some_2 l k Hlt) as [? ->]; clear Hlt
    | Hge : ¬ (k < length ?l)%nat |- _ =>
        rewrite (lookup_ge_None_2 l k) by lia; clear Hge
    end; simpl; rewrite ?Z.add_0_r; done.
Qed.

(** C4. For every ciphertext [x], bootstrapped before or not, the bootstrap
    has noise 3.2 (BASE_NOISE), depth 0, the [bootstrapped] mark, and the
    payload, componentCount and [relinearized] mark of [x]. *)
Theorem bootstrapCiphertext_contract (x : Ciphertext) :
  noise (bootstrapCiphertext x) = 3.2%float
  /\ FHE_CONSTANTS.BASE_NOISE = 3.2%float
  /\ depth (bootstrapCiphertext x) = 0
  /\ bootstrapped (bootstrapCiphertext x) = true
  /\ data (bootstrapCiphertext x) = data x
  /\ size (bootstrapCiphertext x) = size x
  /\ relinearized (bootstrapCiphertext x) = relinearized x
  /\ bootstrapCiphertext (bootstrapCiphertext x) = bootstrapCiphertext x.
Proof. repeat split. Qed.

(** ** Multiplication is a convolution *)

Lemma for_loop_length (n : nat) (body : nat -> list Z -> list Z) (s : list Z) :
  (forall i acc, length (body i acc) = length acc) ->
  length (for_loop n body s) = length s.
Proof.
  intros Hbody. induction n as [|n IH]; [done|].
  by rewrite for_loop_S, Hbody.
Qed.

Lemma sum_to_S (n : nat) (f : nat -> Z) : sum_to (S n) f = sum_to n f + f n.
Proof. unfold sum_to. by rewrite seq_S, fold_left_app. Qed.

Lemma sum_to_ext (n : nat) (f g : nat -> Z) :
  (forall i, (i < n)%nat -> f i = g i) -> sum_to n f = sum_to n g.
Proof.
  induction n as [|n IH]; intros Hfg; [done|].
  rewrite !sum_to_S, IH, Hfg; auto with lia.
Qed.

Lemma sum_to_zero_tail (n p : nat) (f : nat -> Z) :
  (forall i, (n <= i)%nat -> f i = 0) -> sum_to (n + p) f = sum_to n f.
Proof.
  intros Hzero. induction p as [|p IH].
  - by rewrite Nat.add_0_r.
  - rewrite Nat.add_succ_r, sum_to_S, IH, Hzero; lia.
Qed.

Lemma convolution_coefficient_rows (a b : list Z) (k : nat) :
  convolution_coefficient a b k = sum_to (length a) (row_term a b k).
Proof.
  unfold convolution_coefficient.
  rewrite (sum_to_ext _ _ (row_term a b k)).
  2:{ intros i Hi. unfold row_term. rewrite !at_nat. case_decide; [done|lia]. }
  assert (Hright : forall i, (S k <= i)%nat -> row_term a b k i = 0).
  { intros i Hi. unfold row_term. case_decide; [lia|done]. }
  assert (Hleft : forall i, (length a <= i)%nat -> row_term a b k i = 0).
  { intros i Hi. unfold row_term. rewrite (lookup_ge_None_2 a i) by done.
    case_decide; simpl; lia. }
  destruct (Nat.le_ge_cases (S k) (length a)) as [Hle|Hle].
  - replace (length a) with (S k + (length a - S k))%nat by lia.
    by rewrite sum_to_zero_tail.
  - replace (S k) with (length a + (S k - length a))%nat at 1 by lia.
    by rewrite sum_to_zero_tail.
Qed.

Lemma multiply_row_lookup (a_i : Z) (i n : nat) (b result : list Z) (k : nat) :
  (i + n <= length result)%nat ->
  default 0 (for_loop n
      (fun j acc =>
         store acc (Z.of_nat (i + j))
           (Z.rem (at_ acc (Z.of_nat (i + j)) + a_i * at_ b (Z.of_nat j)) 256))
      result !! k) =
    if decide (i <= k < i + n)%nat
    then (default 0 (result !! k) + a_i * default 0 (b !! (k - i)%nat)) mod 256
    else default 0 (result !! k).
Proof.
  revert k. induction n as [|n IH]; intros k Hfit.
  - rewrite for_loop_0. case_decide; [lia|done].
  - rewrite for_loop_S, store_nat, !at_nat, rem_then_wrap, list_lookup_insert.
    rewrite for_loop_length by (intros; apply length_store).
    rewrite !IH by lia.
    case_decide as Hhit.
    + destruct Hhit as [<- _]. cbn [default from_option id].
      repeat case_decide; try lia.
      by replace (i + n - i)%nat with n by lia.
    + rewrite IH by lia. repeat case_decide; try lia; done.
Qed.

Lemma length_multiply_row (a_i : Z) (i : nat) (b result : list Z) :
  length (multiply_row a_i i b result) = length result.
Proof. unfold multiply_row. apply for_loop_length. intros. apply length_store. Qed.

Lemma multiply_rows_lookup (a b : list Z) (m k : nat) :
  (m <= length a)%nat ->
  default 0 (for_loop m (fun i acc => multiply_row (at_ a (Z.of_nat i)) i b acc)
               (new_Uint8Array (length a + length b)) !! k)
  = sum_to m (row_term a b k) mod 256.
Proof.
  induction m as [|m IH]; intros Hm.
  - rewrite for_loop_0. unfold new_Uint8Array.
    destruct (replicate _ 0 !! k) as [x|] eqn:E; [|done].
    apply lookup_replicate_1 in E as [-> _]. done.
  - rewrite for_loop_S. unfold multiply_row at 1.
    rewrite multiply_row_lookup.
    2:{ rewrite for_loop_length by (intros; apply length_multiply_row).
        unfold new_Uint8Array. rewrite length_replicate. lia. }
    rewrite IH by lia. rewrite sum_to_S, at_nat.
    case_decide as Hin.
    + rewrite Zplus_mod_idemp_l. do 2 f_equal.
      unfold row_term. case_decide; [done|lia].
    + assert (row_term a b k m = 0) as ->.
      { unfold row_term. case_decide; [|done].
        rewrite (lookup_ge_None_2 b (k - m)) by lia. simpl. lia. }
      by rewrite Z.add_0_r.
Qed.

Lemma multiply_data_convolution (a b : list Z) : multiply_data a b = convolution a b.
Proof.
  unfold multiply_data, convolution.
  assert (Hlen : length (for_loop (length a)
      (fun i acc => multiply_row (at_ a (Z.of_nat i)) i b acc)
      (new_Uint8Array (length a + length b))) = (length a + length b)%nat).
  { rewrite for_loop_length by (intros; apply length_multiply_row).
    apply length_replicate. }
  apply list_eq. intros k.
  rewrite list_lookup_fmap.
  destruct (Nat.lt_ge_cases k (length a + length b)) as [Hk|Hk].
  - rewrite lookup_seq_lt by done. simpl.
    rewrite convolution_coefficient_rows, <- multiply_rows_lookup by done.
    destruct (lookup_lt_is_Some_2 _ k ltac:(rewrite Hlen; exact Hk)) as [x ->]. done.
  - rewrite lookup_seq_ge by done. simpl.
    apply lookup_ge_None_2. by rewrite Hlen.
Qed.


(** ** Relinearization inside the multiply chain *)

Lemma multiply_step_exceeds (r x : Ciphertext) :
  FHE_CONSTANTS.MAX_CIPHERTEXT_SIZE < size (performHomomorphicMultiply r x) ->
  multiply_step r x = relinearizeMockValue (performHomomorphicMultiply r x).
Proof.
  intros Hbig. unfold multiply_step, needsRelinearization, relinearize, or_else.
  set (p := performHomomorphicMultiply r x) in *.
  unfold FHE_CONSTANTS.MAX_CIPHERTEXT_SIZE in *.
  destruct (Z.eqb_spec (size p) 0) as [Hzero|_]; [lia|].
  destruct (Z.ltb_spec 3 (size p)); [done|lia].
Qed.

Lemma multiply_step_within (r x : Ciphertext) :
  size (performHomomorphicMultiply r x) <= FHE_CONSTANTS.MAX_CIPHERTEXT_SIZE ->
  multiply_step r x = performHomomorphicMultiply r x.
Proof.
  intros Hsmall. unfold multiply_step, needsRelinearization, relinearize, or_else.
  set (p := performHomomorphicMultiply r x) in *.
  unfold FHE_CONSTANTS.MAX_CIPHERTEXT_SIZE in *.
  destruct (Z.eqb_spec (size p) 0) as [Hzero|_].
  - destruct (Z.ltb_spec 3 2); [lia|done].
  - destruct (Z.ltb_spec 3 (size p)); [lia|done].
Qed.

Lemma multiply_step_size (r x : Ciphertext) :
  size (multiply_step r x) <= FHE_CONSTANTS.MAX_CIPHERTEXT_SIZE.
Proof.
  destruct (Z_lt_le_dec FHE_CONSTANTS.MAX_CIPHERTEXT_SIZE
              (size (performHomomorphicMultiply r x))) as [Hbig|Hsmall].
  - rewrite multiply_step_exceeds by done. simpl.
    unfold FHE_CONSTANTS.MAX_CIPHERTEXT_SIZE. lia.
  - by rewrite multiply_step_within.
Qed.

Lemma multiply_step_two (r x : Ciphertext) :
  size r = 2 -> size x = 2 -> size (multiply_step r x) = 2.
Proof.
  intros Hr Hx. rewrite multiply_step_exceeds; [done|].
  simpl. rewrite Hr, Hx. unfold FHE_CONSTANTS.MAX_CIPHERTEXT_SIZE. lia.
Qed.

Lemma fold_multiply_trace (r : Ciphertext) (rest : list Ciphertext) :
  fold_left multiply_step rest r = default r (last (multiply_trace r rest)).
Proof.
  revert r. induction rest as [|x rest IH]; intros r; [done|].
  simpl fold_left. rewrite IH. simpl multiply_trace. rewrite last_cons.
  by destruct (last (multiply_trace (multiply_step r x) rest)).
Qed.

Lemma multiply_trace_bounded (r : Ciphertext) (rest : list Ciphertext) :
  Forall (fun c => size c <= FHE_CONSTANTS.MAX_CIPHERTEXT_SIZE) (multiply_trace r rest).
Proof.
  revert r. induction rest as [|x rest IH]; intros r; simpl; constructor.
  - apply multiply_step_size.
  - apply IH.
Qed.

Lemma multiply_trace_two (r : Ciphertext) (rest : list Ciphertext) :
  size r = 2 -> Forall (fun c => size c = 2) rest ->
  Forall (fun c => size c = 2) (multiply_trace r rest).
Proof.
  revert r. induction rest as [|x rest IH]; intros r Hr Hrest; simpl; [constructor|].
  inversion Hrest as [|? ? Hx Hrest']; subst.
  assert (Hstep : size (multiply_step r x) = 2) by by apply multiply_step_two.
  constructor; [done|]. by apply IH.
Qed.

(** C5. performMultiplication over two or more inputs returns the last value
    of [result]; in every iteration a product whose componentCount exceeds
    MAX_CIPHERTEXT_SIZE (3) is replaced by its relinearization, of
    componentCount 2, and any other product is kept, so that every value of
    [result] after an iteration has componentCount at most 3; and when every
    input has componentCount 2, so has every value of [result] after an
    iteration and the returned one. *)
Theorem performMultiplication_relinearizes (inputs : list Ciphertext) :
  (2 <= length inputs)%nat ->
  exists first rest final,
    inputs = first :: rest
    /\ performMultiplication inputs = Ok final
    /\ last (multiply_trace first rest) = Some final
    /\ (forall r x,
          (FHE_CONSTANTS.MAX_CIPHERTEXT_SIZE < size (performHomomorphicMultiply r x) ->
             multiply_step r x = relinearizeMockValue (performHomomorphicMultiply r x)
             /\ size (multiply_step r x) = 2
             /\ relinearized (multiply_step r x) = true)
          /\ (size (performHomomorphicMultiply r x) <= FHE_CONSTANTS.MAX_CIPHERTEXT_SIZE ->
                multiply_step r x = performHomomorphicMultiply r x))
    /\ Forall (fun c => size c <= 3) (multiply_trace first rest)
    /\ (Forall (fun c => size c = 2) inputs ->
          Forall (fun c => size c = 2) (multiply_trace first rest) /\ size final = 2).
Proof.
  intros Hlen.
  destruct inputs as [|first [|second rest]]; simpl in Hlen; try lia.
  exists first, (second :: rest), (fold_left multiply_step (second :: rest) first).
  split; [done|]. split; [done|].
  assert (Hlast : last (multiply_trace first (second :: rest))
                  = Some (fold_left multiply_step (second :: rest) first)).
  { rewrite fold_multiply_trace.
    destruct (last (multiply_trace first (second :: rest))) eqn:E; [done|].
    apply last_None in E. discriminate E. }
  split; [exact Hlast|]. split.
  { intros r x. split.
    - intros Hbig. rewrite multiply_step_exceeds by done. done.
    - apply multiply_step_within. }
  split; [apply multiply_trace_bounded|].
  intros Hall. inversion Hall as [|? ? Hfirst Hrest]; subst.
  assert (Htrace := multiply_trace_two first (second :: rest) Hfirst Hrest).
  split; [done|].
  rewrite Forall_lookup in Htrace.
  rewrite last_lookup in Hlast. by apply Htrace in Hlast.
Qed.

(** ** The depth of a circuit *)

Lemma seed_inputs_from (inputs : list string) (depths : gmap string DepthValue) (i : string) :
  fold_left (fun depths input => <[input := Finite 0]> depths) inputs depths !! i =
    if decide (i ∈ inputs) then Some (Finite 0) else depths !! i.
Proof.
  revert depths. induction inputs as [|x inputs IH]; intros depths; cbn [fold_left].
  - rewrite decide_False; [done|]. apply not_elem_of_nil.
  - rewrite IH. destruct (decide (i ∈ inputs)) as [Hin|Hout].
    + rewrite decide_True; [done|]. by apply elem_of_cons; right.
    + destruct (decide (x = i)) as [->|Hne].
      * rewrite lookup_insert_eq. rewrite decide_True; [done|]. by apply elem_of_cons; left.
      * rewrite lookup_insert_ne by done.
        rewrite decide_False; [done|].
        intros [->|?]%elem_of_cons; done.
Qed.

Lemma seed_inputs_lookup (inputs : list string) (i : string) :
  seed_inputs inputs !! i = if decide (i ∈ inputs) then Some (Finite 0) else None.
Proof. unfold seed_inputs. by rewrite seed_inputs_from, lookup_empty. Qed.






(** ** 32-bit integers and the length prefix *)

Lemma ToInt32_range (z : Z) : - 2 ^ 31 <= ToInt32 z < 2 ^ 31.
Proof.
  unfold ToInt32. pose proof (Z.mod_pos_bound z (2 ^ 32) ltac:(lia)).
  destruct (Z.ltb_spec (z mod 2 ^ 32) (2 ^ 31)); lia.
Qed.

Lemma ToInt32_congruent (z : Z) : exists k, ToInt32 z = z + k * 2 ^ 32.
Proof.
  unfold ToInt32. pose proof (Z.div_mod z (2 ^ 32) ltac:(lia)) as Hdm.
  destruct (Z.ltb_spec (z mod 2 ^ 32) (2 ^ 31)).
  - exists (- (z / 2 ^ 32)). lia.
  - exists (- (z / 2 ^ 32) - 1). lia.
Qed.

Lemma shifted_byte_congruent (z k s : Z) :
  0 <= s <= 24 -> ((z + k * 2 ^ 32) / 2 ^ s) mod 256 = (z / 2 ^ s) mod 256.
Proof.
  intros Hs.
  replace (k * 2 ^ 32) with (k * 2 ^ (24 - s) * 256 * 2 ^ s).
  - rewrite Z.div_add by lia. apply Z_mod_plus_full.
  - replace 256 with (2 ^ 8) by done.
    rewrite <- !Z.mul_assoc, <- !Z.pow_add_r by lia.
    do 2 f_equal. lia.
Qed.

Lemma land_255 (z : Z) : Z.land z 255 = z mod 256.
Proof. change 255 with (Z.ones 8). by rewrite Z.land_ones. Qed.

Lemma prefix_byte (len s : Z) :
  0 <= s <= 24 ->
  ToUint8 (js_and (js_sar len s) 255) = (len / 2 ^ s) mod 256.
Proof.
  intros Hs. unfold js_and, js_sar.
  rewrite (Z.mod_small s 32) by lia.
  rewrite (ToInt32_id 255) by lia.
  rewrite Z.shiftr_div_pow2 by lia.
  pose proof (ToInt32_range len) as Hr.
  assert (Hq : - 2 ^ 31 <= ToInt32 len / 2 ^ s < 2 ^ 31).
  { assert (0 < 2 ^ s) by lia.
    split.
    - apply Z.div_le_lower_bound; [done|]. nia.
    - apply Z.div_lt_upper_bound; [done|]. nia. }
  rewrite ToInt32_id by done.
  rewrite land_255. unfold ToUint8. rewrite Z.mod_mod by lia.
  destruct (ToInt32_congruent len) as [k ->].
  by apply shifted_byte_congruent.
Qed.

Lemma prefix_low_byte (len : Z) : ToUint8 (js_and len 255) = len mod 256.
Proof.
  unfold js_and. rewrite (ToInt32_id 255) by lia.
  rewrite land_255. unfold ToUint8. rewrite Z.mod_mod by lia.
  destruct (ToInt32_congruent len) as [k ->].
  replace (k * 2 ^ 32) with (k * 2 ^ 24 * 256) by lia.
  apply Z_mod_plus_full.
Qed.

Lemma testbit_above_31 (n i : Z) : 0 <= n < 2 ^ 31 -> 31 <= i -> Z.testbit n i = false.
Proof.
  intros Hn Hi. apply Z.bits_above_log2; [lia|].
  pose proof (log2_below n 31 ltac:(lia) Hn). lia.
Qed.

Lemma join_be32 (n : Z) :
  0 <= n < 2 ^ 31 ->
  Z.lor (Z.lor (Z.lor (Z.shiftl ((n / 2 ^ 24) mod 256) 24)
                      (Z.shiftl ((n / 2 ^ 16) mod 256) 16))
               (Z.shiftl ((n / 2 ^ 8) mod 256) 8))
        (n mod 256) = n.
Proof.
  intros Hn.
  rewrite <- !Z.shiftr_div_pow2 by lia.
  change 256 with (2 ^ 8). rewrite <- !Z.land_ones by lia.
  Z.bitblast; rewrite (testbit_above_31 n) by lia; reflexivity.
Qed.

(** Reading back a length prefix below [2 ^ 31]. *)
Lemma read_be32 (n : Z) :
  0 <= n < 2 ^ 31 ->
  js_or (js_or (js_or (js_shl ((n / 2 ^ 24) mod 256) 24)
                      (js_shl ((n / 2 ^ 16) mod 256) 16))
               (js_shl ((n / 2 ^ 8) mod 256) 8))
        (n mod 256) = n.
Proof.
  intros Hn.
  assert (H24 : 0 <= (n / 2 ^ 24) mod 256 < 128).
  { rewrite Z.mod_small.
    - split; [apply Z.div_pos; lia | apply Z.div_lt_upper_bound; lia].
    - split; [apply Z.div_pos; lia | apply Z.div_lt_upper_bound; lia]. }
  pose proof (Z.mod_pos_bound (n / 2 ^ 16) 256 ltac:(lia)) as H16.
  pose proof (Z.mod_pos_bound (n / 2 ^ 8) 256 ltac:(lia)) as H8.
  pose proof (Z.mod_pos_bound n 256 ltac:(lia)) as H0.
  assert (Hshl : forall b s, 0 <= s <= 24 -> 0 <= b -> b * 2 ^ s < 2 ^ 31 ->
                   js_shl b s = Z.shiftl b s /\ 0 <= Z.shiftl b s < 2 ^ 31).
  { intros b s Hs Hb Hbound. unfold js_shl.
    rewrite (Z.mod_small s 32) by lia.
    rewrite (ToInt32_id b) by nia.
    rewrite Z.shiftl_mul_pow2 by lia.
    rewrite ToInt32_id by nia. split; [done|nia]. }
  destruct (Hshl _ 24 ltac:(lia) (proj1 H24) ltac:(lia)) as [-> R24].
  destruct (Hshl _ 16 ltac:(lia) (proj1 H16) ltac:(lia)) as [-> R16].
  destruct (Hshl _ 8 ltac:(lia) (proj1 H8) ltac:(lia)) as [-> R8].
  assert (Hor : forall x y, 0 <= x < 2 ^ 31 -> 0 <= y < 2 ^ 31 ->
                  js_or x y = Z.lor x y /\ 0 <= Z.lor x y < 2 ^ 31).
  { intros x y Hx Hy. unfold js_or. rewrite !ToInt32_id by lia.
    split; [done|]. split; [apply Z.lor_nonneg; lia|].
    apply below_pow2; [apply Z.lor_nonneg; lia|].
    rewrite Z.log2_lor by lia.
    pose proof (log2_below x 31 ltac:(lia) Hx).
    pose proof (log2_below y 31 ltac:(lia) Hy).
    lia. }
  destruct (Hor _ _ R24 R16) as [-> R1].
  destruct (Hor _ _ R1 R8) as [-> R2].
  destruct (Hor _ (n mod 256) R2 ltac:(lia)) as [-> _].
  by apply join_be32.
Qed.

(** ** packValues writes the packed format *)

Lemma length_be32 (n : Z) : length (be32 n) = 4%nat.
Proof. reflexivity. Qed.

Lemma packed_format_cons (v : list Z) (values : list (list Z)) :
  packed_format (v :: values) = be32 (Z.of_nat (length v)) ++ v ++ packed_format values.
Proof. unfold packed_format. cbn [map concat]. by rewrite <- app_assoc. Qed.

Lemma total_length_from (values : list (list Z)) (sum : nat) :
  fold_left (fun sum v => (sum + length v + 4)%nat) values sum
  = (sum + length (packed_format values))%nat.
Proof.
  revert sum. induction values as [|v values IH]; intros sum.
  - simpl. lia.
  - cbn [fold_left]. rewrite IH, packed_format_cons, !length_app, length_be32. lia.
Qed.

Lemma store_app_r (done l : list Z) (j : Z) (v : Z) :
  0 <= j < Z.of_nat (length l) ->
  store (done ++ l) (Z.of_nat (length done) + j) v = done ++ <[Z.to_nat j := ToUint8 v]> l.
Proof.
  intros Hj. unfold store. rewrite length_app.
  destruct (Z.leb_spec 0 (Z.of_nat (length done) + j)); [|lia].
  destruct (Z.ltb_spec (Z.of_nat (length done) + j)
              (Z.of_nat (length done + length l))); [|lia].
  simpl. replace (Z.to_nat (Z.of_nat (length done) + j))
    with (length done + Z.to_nat j)%nat by lia.
  apply insert_app_r.
Qed.

Lemma pack_step_format (done v : list Z) (room : nat) :
  (4 + length v <= room)%nat ->
  pack_step (Some (done ++ replicate room 0, length done)) v
  = Some ((done ++ be32 (Z.of_nat (length v)) ++ v)
            ++ replicate (room - (4 + length v)) 0,
          length (done ++ be32 (Z.of_nat (length v)) ++ v)).
Proof.
  intros Hroom. unfold pack_step.
  replace room with (4 + (room - 4))%nat at 1 by lia.
  set (len := Z.of_nat (length v)).
  set (zeros := replicate (room - 4) 0).
  cbn [replicate Nat.add].
  rewrite <- (Z.add_0_r (Z.of_nat (length done))) at 1.
  rewrite !store_app_r by (cbn [length]; rewrite ?length_insert; cbn [length]; lia).
  change (Z.to_nat 0) with 0%nat. change (Z.to_nat 1) with 1%nat.
  change (Z.to_nat 2) with 2%nat. change (Z.to_nat 3) with 3%nat.
  cbn [list_insert insert].
  rewrite !prefix_byte, prefix_low_byte by lia.
  unfold Uint8Array_set.
  rewrite decide_True.
  2:{ rewrite length_app. cbn [length]. unfold zeros. rewrite length_replicate. lia. }
  f_equal. f_equal.
  - assert (Hpacked :
      done ++ (len / 2 ^ 24) mod 256 :: (len / 2 ^ 16) mod 256 :: (len / 2 ^ 8) mod 256
        :: len mod 256 :: replicate (room - 4) 0
      = (done ++ be32 len) ++ replicate (room - 4) 0) by by rewrite <- app_assoc.
    rewrite Hpacked.
    assert (Hlen : (length done + 4)%nat = length (done ++ be32 len))
      by (rewrite length_app; done).
    rewrite Hlen, take_app_length, drop_app_add, drop_replicate.
    rewrite <- !app_assoc. do 3 f_equal. f_equal. lia.
  - rewrite !length_app, length_be32. lia.
Qed.

Lemma pack_fold_format (values : list (list Z)) (done : list Z) (room : nat) :
  (length (packed_format values) <= room)%nat ->
  fold_left pack_step values (Some (done ++ replicate room 0, length done))
  = Some ((done ++ packed_format values)
            ++ replicate (room - length (packed_format values)) 0,
          length (done ++ packed_format values)).
Proof.
  revert done room. induction values as [|v values IH]; intros done room Hroom.
  - cbn [fold_left packed_format map concat length].
    by rewrite app_nil_r, Nat.sub_0_r.
  - rewrite packed_format_cons in *. rewrite !length_app, length_be32 in Hroom.
    cbn [fold_left]. rewrite pack_step_format by lia.
    rewrite IH by lia.
    rewrite !length_app, length_be32, <- !app_assoc.
    f_equal. f_equal; [|lia]. do 5 f_equal. lia.
Qed.

Lemma packValues_format (values : list (list Z)) :
  packValues values = Some (packed_format values).
Proof.
  unfold packValues, new_Uint8Array.
  rewrite total_length_from. cbn [Nat.add].
  pose proof (pack_fold_format values [] (length (packed_format values)) (le_n _)) as Hfold.
  cbn [app length] in Hfold. rewrite Hfold. cbn [fmap option_fmap option_map fst].
  by rewrite Nat.sub_diag, app_nil_r.
Qed.

(** ** unpackValues on a packed buffer *)

Lemma at_app_middle (pre l tail : list Z) (j : nat) :
  (j < length l)%nat ->
  at_ (pre ++ l ++ tail) (Z.of_nat (length pre) + Z.of_nat j) = default 0 (l !! j).
Proof.
  intros Hj. rewrite <- Nat2Z.inj_add, at_nat.
  rewrite lookup_app_r by lia.
  replace (length pre + j - length pre)%nat with j by lia.
  by rewrite lookup_app_l.
Qed.

Lemma slice_nat (a : list Z) (s e : nat) :
  (s <= e)%nat -> (s <= length a)%nat ->
  slice a (Z.of_nat s) (Z.of_nat e) = take (e - s) (drop s a).
Proof.
  intros Hse Hs. unfold slice.
  destruct (Z.ltb_spec (Z.of_nat s) 0); [lia|].
  destruct (Z.ltb_spec (Z.of_nat e) 0); [lia|].
  rewrite (Z.min_l (Z.of_nat s)) by lia. rewrite Nat2Z.id.
  destruct (Nat.le_gt_cases e (length a)) as [He|He].
  - rewrite Z.min_l by lia. f_equal. lia.
  - rewrite Z.min_r by lia.
    rewrite !take_ge; [done| |]; rewrite length_drop; lia.
Qed.

Lemma slice_negative_end (a : list Z) (s e : Z) :
  0 <= s <= Z.of_nat (length a) -> e < 0 ->
  slice a s e
  = take (Z.to_nat (Z.max (Z.of_nat (length a) + e) 0 - s)) (drop (Z.to_nat s) a).
Proof.
  intros Hs He. unfold slice.
  destruct (Z.ltb_spec s 0); [lia|].
  destruct (Z.ltb_spec e 0); [|lia].
  rewrite Z.min_l by lia. f_equal. lia.
Qed.

Lemma unpack_exit (fuel : nat) (packed : list Z) (offset : Z) (acc : list (list Z)) :
  Z.of_nat (length packed) <= offset ->
  unpackValues_loop fuel packed offset acc = Some acc.
Proof.
  intros Hend. destruct fuel; simpl;
    by destruct (Z.ltb_spec offset (Z.of_nat (length packed))); [lia|].
Qed.

(** One iteration of the loop on a record with the prefix bytes [h0 .. h3]. *)
Lemma unpack_step_raw (pre body : list Z) (h0 h1 h2 h3 : Z) (fuel : nat)
    (acc : list (list Z)) :
  unpackValues_loop (S fuel) (pre ++ [h0; h1; h2; h3] ++ body) (Z.of_nat (length pre)) acc
  = unpackValues_loop fuel (pre ++ [h0; h1; h2; h3] ++ body)
      (Z.of_nat (length pre) + 4 + join_prefix h0 h1 h2 h3)
      (acc ++ [slice (pre ++ [h0; h1; h2; h3] ++ body)
                 (Z.of_nat (length pre) + 4)
                 (Z.of_nat (length pre) + 4 + join_prefix h0 h1 h2 h3)]).
Proof.
  cbn [unpackValues_loop].
  destruct (Z.ltb_spec (Z.of_nat (length pre))
              (Z.of_nat (length (pre ++ [h0; h1; h2; h3] ++ body)))) as [_|Hout].
  2:{ rewrite !length_app in Hout. cbn [length] in Hout. lia. }
  assert (Hin : forall j, (j < 4)%nat -> (j < length [h0; h1; h2; h3])%nat)
    by (intros; cbn [length]; lia).
  pose proof (at_app_middle pre [h0; h1; h2; h3] body 0 (Hin 0%nat ltac:(lia))) as R0.
  change (Z.of_nat 0) with 0 in R0. rewrite Z.add_0_r in R0.
  assert (R1 : at_ (pre ++ [h0; h1; h2; h3] ++ body) (Z.of_nat (length pre) + 1) = h1)
    by exact (at_app_middle pre [h0; h1; h2; h3] body 1 (Hin 1%nat ltac:(lia))).
  assert (R2 : at_ (pre ++ [h0; h1; h2; h3] ++ body) (Z.of_nat (length pre) + 2) = h2)
    by exact (at_app_middle pre [h0; h1; h2; h3] body 2 (Hin 2%nat ltac:(lia))).
  assert (R3 : at_ (pre ++ [h0; h1; h2; h3] ++ body) (Z.of_nat (length pre) + 3) = h3)
    by exact (at_app_middle pre [h0; h1; h2; h3] body 3 (Hin 3%nat ltac:(lia))).
  rewrite R0, R1, R2, R3. unfold join_prefix.
  cbn [lookup list_lookup default from_option id]. reflexivity.
Qed.

Lemma unpack_head (body : list Z) (h0 h1 h2 h3 : Z) (fuel : nat) :
  unpackValues_loop (S fuel) ([h0; h1; h2; h3] ++ body) 0 []
  = unpackValues_loop fuel ([h0; h1; h2; h3] ++ body)
      (4 + join_prefix h0 h1 h2 h3)
      [slice ([h0; h1; h2; h3] ++ body) 4 (4 + join_prefix h0 h1 h2 h3)].
Proof. exact (unpack_step_raw [] body h0 h1 h2 h3 fuel []). Qed.

(** One iteration on a record whose prefix declares [n] bytes. *)
Lemma unpack_step (pre body : list Z) (n : Z) (fuel : nat) (acc : list (list Z)) :
  0 <= n < 2 ^ 31 ->
  unpackValues_loop (S fuel) (pre ++ be32 n ++ body) (Z.of_nat (length pre)) acc
  = unpackValues_loop fuel (pre ++ be32 n ++ body)
      (Z.of_nat (length pre) + 4 + n)
      (acc ++ [slice (pre ++ be32 n ++ body)
                 (Z.of_nat (length pre) + 4) (Z.of_nat (length pre) + 4 + n)]).
Proof.
  intros Hn. unfold be32. rewrite unpack_step_raw.
  unfold join_prefix. by rewrite read_be32.
Qed.

Lemma unpack_format (values : list (list Z)) (pre tail : list Z)
    (acc : list (list Z)) (fuel : nat) :
  Forall short_buffer values ->
  unpackValues_loop (length values + fuel) (pre ++ packed_format values ++ tail)
    (Z.of_nat (length pre)) acc
  = unpackValues_loop fuel (pre ++ packed_format values ++ tail)
      (Z.of_nat (length (pre ++ packed_format values))) (acc ++ values).
Proof.
  revert pre acc. induction values as [|v values IH]; intros pre acc Hshort.
  - cbn [packed_format map concat length Nat.add]. by rewrite !app_nil_r.
  - inversion Hshort as [|? ? Hv Hrest]; subst. unfold short_buffer in Hv.
    rewrite packed_format_cons.
    cbn [length Nat.add].
    rewrite <- !app_assoc.
    rewrite unpack_step by lia.
    assert (Hslice :
      slice (pre ++ be32 (Z.of_nat (length v)) ++ v ++ packed_format values ++ tail)
        (Z.of_nat (length pre) + 4) (Z.of_nat (length pre) + 4 + Z.of_nat (length v)) = v).
    { replace (Z.of_nat (length pre) + 4 + Z.of_nat (length v))
        with (Z.of_nat (length (pre ++ be32 (Z.of_nat (length v))) + length v))
        by (rewrite length_app, length_be32; lia).
      replace (Z.of_nat (length pre) + 4)
        with (Z.of_nat (length (pre ++ be32 (Z.of_nat (length v)))))
        by (rewrite length_app, length_be32; lia).
      rewrite slice_nat; [|lia|rewrite !length_app; lia].
      rewrite (app_assoc pre), drop_app_length.
      replace (length (pre ++ be32 (Z.of_nat (length v))) + length v
               - length (pre ++ be32 (Z.of_nat (length v))))%nat
        with (length v) by lia.
      apply take_app_length. }
    rewrite Hslice.
    replace (Z.of_nat (length pre) + 4 + Z.of_nat (length v))
      with (Z.of_nat (length (pre ++ be32 (Z.of_nat (length v)) ++ v)))
      by (rewrite !length_app, length_be32; lia).
    pose proof (IH (pre ++ be32 (Z.of_nat (length v)) ++ v) (acc ++ [v]) Hrest) as Hnext.
    rewrite <- !app_assoc in Hnext. rewrite Hnext.
    f_equal; rewrite ?length_app, <- ?app_assoc; (lia || done).
Qed.

(** The values read so far are never taken back. *)
Lemma unpack_prefix_of_result (fuel : nat) (packed : list Z) (offset : Z)
    (acc result : list (list Z)) :
  unpackValues_loop fuel packed offset acc = Some result -> acc `prefix_of` result.
Proof.
  revert offset acc. induction fuel as [|fuel IH]; intros offset acc; simpl.
  - destruct (offset <? Z.of_nat (length packed)); [done|].
    by intros [= ->].
  - destruct (offset <? Z.of_nat (length packed)).
    + intros Hres. apply IH in Hres.
      etrans; [|exact Hres]. by apply prefix_app_r.
    + by intros [= ->].
Qed.

(** A buffer of [2 ^ 32] bytes gets the prefix [0, 0, 0, 0]; the first value
    that unpackValues then reads is the empty buffer. *)
Lemma unpack_wrapped_prefix (v : list Z) (fuel : nat) :
  Z.of_nat (length v) = 2 ^ 32 ->
  packValues [v] = Some (packed_format [v])
  /\ unpackValues fuel (packed_format [v]) <> Some [v].
Proof.
  intros Hlen. split; [apply packValues_format|].
  assert (Hjoin : join_prefix 0 0 0 0 = 0) by (vm_compute; reflexivity).
  unfold unpackValues. intros Hres.
  assert (Hformat : packed_format [v] = [] ++ [0; 0; 0; 0] ++ v).
  { rewrite packed_format_cons, Hlen.
    cbn [packed_format map concat app]. by rewrite app_nil_r. }
  destruct fuel as [|fuel].
  - simpl in Hres.
    destruct (Z.ltb_spec 0 (Z.of_nat (length (packed_format [v])))) as [|Hout];
      [done|].
    rewrite packed_format_cons, !length_app in Hout. lia.
  - rewrite Hformat, app_nil_l in Hres.
    rewrite unpack_head in Hres.
    apply unpack_prefix_of_result in Hres.
    rewrite Hjoin, Z.add_0_r in Hres.
    destruct Hres as [more Hmore]. cbn [app] in Hmore.
    injection Hmore as Hv _.
    apply (f_equal length) in Hv.
    rewrite (slice_nat _ 4 4) in Hv by (cbn [length]; lia).
    rewrite length_take in Hv. lia.
Qed.

(** A buffer of [2 ^ 31] bytes gets the prefix [128, 0, 0, 0], which
    unpackValues reads as [- 2 ^ 31]: the first value it slices has 4 bytes. *)
Lemma unpack_signed_prefix (v : list Z) (fuel : nat) :
  Z.of_nat (length v) = 2 ^ 31 ->
  join_prefix 128 0 0 0 = - 2 ^ 31
  /\ unpackValues fuel (packed_format [v]) <> Some [v].
Proof.
  intros Hlen.
  assert (Hjoin : join_prefix 128 0 0 0 = - 2 ^ 31) by (vm_compute; reflexivity).
  split; [exact Hjoin|].
  unfold unpackValues. intros Hres.
  assert (Hformat : packed_format [v] = [] ++ [128; 0; 0; 0] ++ v).
  { rewrite packed_format_cons, Hlen.
    cbn [packed_format map concat app]. by rewrite app_nil_r. }
  destruct fuel as [|fuel].
  - simpl in Hres.
    destruct (Z.ltb_spec 0 (Z.of_nat (length (packed_format [v])))) as [|Hout];
      [done|].
    rewrite packed_format_cons, !length_app in Hout. lia.
  - rewrite Hformat, app_nil_l in Hres.
    rewrite unpack_head in Hres.
    apply unpack_prefix_of_result in Hres.
    rewrite Hjoin in Hres.
    destruct Hres as [more Hmore]. cbn [app] in Hmore.
    injection Hmore as Hv _.
    apply (f_equal length) in Hv.
    rewrite slice_negative_end in Hv by (cbn [length]; lia).
    rewrite length_take in Hv. cbn [length] in Hv. lia.
Qed.

(** The round trip also fails on a buffer of [2 ^ 31] zero bytes. *)
Lemma round_trip_fails_at_2_pow_31 :
  be32 (2 ^ 31) = [128; 0; 0; 0]
  /\ (forall fuel,
        unpackValues fuel (packed_format [replicate (Z.to_nat (2 ^ 31)) 0])
        <> Some [replicate (Z.to_nat (2 ^ 31)) 0]).
Proof.
  assert (Hlen : Z.of_nat (length (replicate (Z.to_nat (2 ^ 31)) 0)) = 2 ^ 31).
  { rewrite length_replicate. apply Z2Nat.id. apply Z.pow_nonneg. lia. }
  split; [reflexivity|].
  intros fuel. exact (proj2 (unpack_signed_prefix _ fuel Hlen)).
Qed.

(** C9, counterexample.  A buffer of [2 ^ 32] zero bytes: packValues writes
    it behind the prefix [0, 0, 0, 0], and unpackValues never returns it. *)
Lemma round_trip_fails_at_2_pow_32 :
  packValues [replicate (Z.to_nat (2 ^ 32)) 0]
    = Some (packed_format [replicate (Z.to_nat (2 ^ 32)) 0])
  /\ be32 (2 ^ 32) = [0; 0; 0; 0]
  /\ (forall fuel,
        unpackValues fuel (packed_format [replicate (Z.to_nat (2 ^ 32)) 0])
        <> Some [replicate (Z.to_nat (2 ^ 32)) 0]).
Proof.
  assert (Hlen : Z.of_nat (length (replicate (Z.to_nat (2 ^ 32)) 0)) = 2 ^ 32).
  { rewrite length_replicate. apply Z2Nat.id. apply Z.pow_nonneg. lia. }
  split; [apply packValues_format|].
  split; [reflexivity|].
  intros fuel. exact (proj2 (unpack_wrapped_prefix _ fuel Hlen)).
Qed.

(** C9, as amended.  For every finite sequence of buffers, each shorter than
    [2 ^ 31] bytes (the empty sequence and empty buffers included),
    packValues returns the packed format (a 4-byte big-endian length prefix
    and the raw bytes for each buffer, nothing between), and unpackValues
    returns the sequence from it once its loop is given an iteration per
    buffer. *)
Theorem unpackValues_packValues (values : list (list Z)) (fuel : nat) :
  Forall short_buffer values ->
  (length values <= fuel)%nat ->
  exists packed,
    packValues values = Some packed
    /\ packed = packed_format values
    /\ unpackValues fuel packed = Some values.
Proof.
  intros Hshort Hfuel. exists (packed_format values).
  split; [apply packValues_format|]. split; [done|].
  unfold unpackValues.
  pose proof (unpack_format values [] [] [] (fuel - length values) Hshort) as Hrun.
  cbn [app length] in Hrun. rewrite app_nil_r in Hrun.
  replace (length values + (fuel - length values))%nat with fuel in Hrun by lia.
  change (Z.of_nat 0) with 0 in Hrun. rewrite Hrun.
  apply unpack_exit. lia.
Qed.

(** C8, counterexample.  The prefix declares 5 bytes, 2 remain: unpackValues
    returns the 2 bytes as the value. *)
Lemma unpackValues_truncated_example :
  unpackValues 1 [0; 0; 0; 5; 1; 2] = Some [[1; 2]].
Proof. reflexivity. Qed.

(** C8, as amended.  For every packed buffer whose last length prefix
    declares more bytes (fewer than [2 ^ 31]) than remain, unpackValues does
    not fail: it returns the values before it and, as last value, the bytes
    that remain. *)
Theorem unpackValues_truncates (values : list (list Z)) (n : Z) (rest : list Z)
    (fuel : nat) :
  Forall short_buffer values ->
  Z.of_nat (length rest) < n < 2 ^ 31 ->
  (length values < fuel)%nat ->
  unpackValues fuel (packed_format values ++ be32 n ++ rest) = Some (values ++ [rest]).
Proof.
  intros Hshort Hn Hfuel. unfold unpackValues.
  pose proof (unpack_format values [] (be32 n ++ rest) []
                (S (fuel - S (length values))) Hshort) as Hrun.
  cbn [app length] in Hrun.
  replace (length values + S (fuel - S (length values)))%nat with fuel in Hrun by lia.
  change (Z.of_nat 0) with 0 in Hrun. rewrite Hrun. clear Hrun.
  set (P := packed_format values).
  rewrite unpack_step by lia.
  rewrite unpack_exit by (rewrite !length_app, length_be32; lia).
  do 2 f_equal.
  replace (Z.of_nat (length P) + 4 + n)
    with (Z.of_nat (length (P ++ be32 n) + Z.to_nat n))
    by (rewrite length_app, length_be32; lia).
  replace (Z.of_nat (length P) + 4)
    with (Z.of_nat (length (P ++ be32 n)))
    by (rewrite length_app, length_be32; lia).
  rewrite slice_nat; [|lia|rewrite !length_app; lia].
  rewrite (app_assoc P), drop_app_length.
  f_equal. apply take_ge. lia.
Qed.

(** ** Circuits deeper than MAX_CIRCUIT_DEPTH *)


(** ** The reported noise level *)

Section NoiseProofs.
Context `{Platform}.

Lemma encryptValue_rng (value : list Z) (sigma : float) (rng : Rng) :
  snd (encryptValue value sigma rng) = snd (generateNoise sigma rng).
Proof.
  unfold encryptValue. destruct (generateNoise sigma rng) as [ks rng'].
  by destruct (Uint8Array_set _ _ _).
Qed.

Lemma encryptField_noiseLevel (wallet : string) (plaintext : list Z) (rng : Rng)
    (encrypted : Serialized.t) (noiseLevel : float) (rng' : Rng) :
  encryptField (Some wallet) plaintext rng = (Ok (encrypted, noiseLevel), rng') ->
  noiseLevel
  = (fst (Math_random (snd (generateNoise FHE_CONSTANTS.noiseStandardDeviation rng)))
     * 50 * 1)%float.
Proof.
  unfold encryptField, performFheEncryption.
  pose proof (encryptValue_rng plaintext FHE_CONSTANTS.noiseStandardDeviation rng) as Hrng.
  destruct (encryptValue plaintext FHE_CONSTANTS.noiseStandardDeviation rng)
    as [[c|e] rng1]; simpl in Hrng; subst rng1; [|done].
  unfold calculateNoiseLevel. simpl.
  destruct (Math_random _) as [u rng2]. by intros [= _ <- _].
Qed.

(** C10. calculateNoiseLevel returns the same value and generator state for
    any two ciphertexts of equal depth on the same draws, whatever their
    noise and payload, and for any two serialized ciphertexts.  So the
    noise level of encryptField's metadata is a function of the draws
    alone, and the noise level and the auto-bootstrap decision that
    performHomomorphicOperation reports for a result are functions of the
    result's depth, the auto-bootstrap option and the draws. *)
Theorem calculateNoiseLevel_ignores_noise :
  (forall c1 c2 rng,
     depth c1 = depth c2 ->
     calculateNoiseLevel (ArgCiphertext c1) rng = calculateNoiseLevel (ArgCiphertext c2) rng)
  /\ (forall s1 s2 rng,
        calculateNoiseLevel (ArgString s1) rng = calculateNoiseLevel (ArgString s2) rng)
  /\ (forall wallet p1 p2 rng e1 n1 r1 e2 n2 r2,
        encryptField (Some wallet) p1 rng = (Ok (e1, n1), r1) ->
        encryptField (Some wallet) p2 rng = (Ok (e2, n2), r2) ->
        n1 = n2)
  /\ (forall type autoBootstrap c1 c2 rng,
        depth c1 = depth c2 ->
        FheComputationResult.noiseLevel (fst (report_operation type autoBootstrap c1 rng))
        = FheComputationResult.noiseLevel (fst (report_operation type autoBootstrap c2 rng))
        /\ FheComputationResult.bootstrapped (fst (report_operation type autoBootstrap c1 rng))
           = FheComputationResult.bootstrapped (fst (report_operation type autoBootstrap c2 rng))
        /\ snd (report_operation type autoBootstrap c1 rng)
           = snd (report_operation type autoBootstrap c2 rng))
  /\ (forall wallet operation rng result,
        dispatch_operation operation = inl (Ok result) ->
        performHomomorphicOperation (Some wallet) operation rng
        = (Ok (fst (report_operation (HomomorphicOperation.type operation)
                      (HomomorphicOperation.autoBootstrap operation) result rng)),
           snd (report_operation (HomomorphicOperation.type operation)
                  (HomomorphicOperation.autoBootstrap operation) result rng))).
Proof.
  assert (Hsame : forall c1 c2 rng, depth c1 = depth c2 ->
    calculateNoiseLevel (ArgCiphertext c1) rng = calculateNoiseLevel (ArgCiphertext c2) rng).
  { intros c1 c2 rng Hdepth. unfold calculateNoiseLevel. simpl. by rewrite Hdepth. }
  split; [exact Hsame|]. split; [done|]. split.
  { intros wallet p1 p2 rng e1 n1 r1 e2 n2 r2 H1 H2.
    apply encryptField_noiseLevel in H1, H2. congruence. }
  split.
  - intros type autoBootstrap c1 c2 rng Hdepth. unfold report_operation.
    rewrite (Hsame c1 c2 rng Hdepth).
    destruct (calculateNoiseLevel (ArgCiphertext c2) rng) as [level rng1].
    set (refresh := (FHE_CONSTANTS.MAX_NOISE_LEVEL <? level)%float && autoBootstrap).
    assert (Hnext :
      calculateNoiseLevel
        (ArgCiphertext (if refresh then performBootstrapping c1 else c1)) rng1
      = calculateNoiseLevel
          (ArgCiphertext (if refresh then performBootstrapping c2 else c2)) rng1).
    { apply Hsame. by destruct refresh. }
    rewrite Hnext. clear Hnext.
    destruct (calculateNoiseLevel _ rng1). repeat split.
  - intros wallet operation rng result Hdispatch.
    unfold performHomomorphicOperation. rewrite Hdispatch.
    by destruct (report_operation _ _ result rng).
Qed.
End NoiseProofs.

(** * The definitions at concrete inputs *)

Example multiply_data_example : multiply_data [1; 2] [3; 4] = [3; 10; 8; 0].
Proof. reflexivity. Qed.

Example multiply_data_wraps : multiply_data [200; 100] [2; 3] = [144; 32; 44; 0].
Proof. reflexivity. Qed.

Example add_example :
  data (performHomomorphicAdd (fresh_ciphertext [250; 1; 7]) (fresh_ciphertext [10]))
  = [4; 1; 7]
  /\ noise (performHomomorphicAdd (fresh_ciphertext [250; 1; 7]) (fresh_ciphertext [10]))
     = 7.5%float.
Proof. split; reflexivity. Qed.

Example packValues_example :
  packValues [[1; 2]; []; [9]] = Some [0; 0; 0; 2; 1; 2; 0; 0; 0; 0; 0; 0; 0; 1; 9].
Proof. reflexivity. Qed.

Example unpackValues_example :
  unpackValues 3 [0; 0; 0; 2; 1; 2; 0; 0; 0; 0; 0; 0; 0; 1; 9] = Some [[1; 2]; []; [9]].
Proof. reflexivity. Qed.

Example encryptValue_example :
  exists c, fst (@encryptValue constant_platform [1; 2; 3] 3.2%float 0%nat) = Ok c
            /\ length (data c) = 35%nat /\ noise c = 3.2%float /\ size c = 2.
Proof. eexists. split; [reflexivity|]. repeat split. Qed.

Example calculateNoiseLevel_example :
  fst (@calculateNoiseLevel constant_platform
         (ArgCiphertext {| data := [1]; noise := 1000%float; depth := 3; size := 2;
                           bootstrapped := false; relinearized := false |}) 0%nat)
  = 75%float
  /\ fst (@calculateNoiseLevel constant_platform
            (ArgCiphertext (fresh_ciphertext [1; 2])) 0%nat) = 25%float.
Proof. split; reflexivity. Qed.

Example multiply_chain_example :
  exists final,
    performMultiplication [fresh_ciphertext [1]; fresh_ciphertext [2]; fresh_ciphertext [3]]
    = Ok final
    /\ data final = [6; 0; 0] /\ size final = 2 /\ depth final = 2
    /\ relinearized final = true.
Proof. eexists. split; [reflexivity|]. repeat split. Qed.

Example executeCircuit_example :
  fst (@executeCircuit constant_platform (Some "0xabc") (Some "0xsys") "any"
         [("input1", Encoded (serializeCiphertext (fresh_ciphertext [1; 2])));
          ("input2", Encoded (serializeCiphertext (fresh_ciphertext [3])))] 0%nat)
  = Ok [("output",
         {| Serialized.data := [4; 2]; Serialized.noise := 7.5%float;
            Serialized.depth := 0; Serialized.size := 2;
            Serialized.bootstrapped := false |})].
Proof. vm_compute. reflexivity. Qed.

Example executeCircuit_unbound_wire :
  fst (@executeCircuit constant_platform (Some "0xabc") (Some "0xsys") "any"
         [("input1", Encoded (serializeCiphertext (fresh_ciphertext [1; 2])))] 0%nat)
  = Throw "TypeError: Cannot read properties of undefined".
Proof. vm_compute. reflexivity. Qed.

Example executeCircuit_malformed_input :
  fst (@executeCircuit constant_platform (Some "0xabc") (Some "0xsys") "any"
         [("input1", Encoded (serializeCiphertext (fresh_ciphertext [1; 2])));
          ("input2", Encoded (serializeCiphertext (fresh_ciphertext [3])));
          ("other", Malformed)] 0%nat)
  = Throw "Failed to deserialize ciphertext".
Proof. vm_compute. reflexivity. Qed.

Example executeCircuit_deep_inputs :
  exists out,
    fst (@executeCircuit constant_platform (Some "0xabc") (Some "0xsys") "any"
           [("input1", Encoded {| Serialized.data := [1; 2]; Serialized.noise := 3.2%float;
                                  Serialized.depth := 25; Serialized.size := 2;
                                  Serialized.bootstrapped := false |});
            ("input2", Encoded {| Serialized.data := [3]; Serialized.noise := 3.2%float;
                                  Serialized.depth := 21; Serialized.size := 2;
                                  Serialized.bootstrapped := false |})] 0%nat)
    = Ok [("output", out)]
    /\ Serialized.data out = [4; 2].
Proof. eexists. split; [vm_compute; reflexivity|reflexivity]. Qed.

Example unsupported_operation_malformed_input :
  @performHomomorphicOperation constant_platform (Some "0xabc")
    {| HomomorphicOperation.type := "divide";
       HomomorphicOperation.inputs := [Malformed];
       HomomorphicOperation.autoBootstrap := false;
       HomomorphicOperation.rotationAmount := None |} 0%nat
  = (Throw "Failed to deserialize ciphertext", 0%nat).
Proof. reflexivity. Qed.

(** * The theorems at concrete inputs *)

Lemma decryptValue_encryptValue_witness :
  exists c, fst (@encryptValue constant_platform [1; 2; 3] 3.2%float 0%nat) = Ok c
            /\ length (data c) = 35%nat
            /\ length (fst (@generateNoise constant_platform (noise c) 0%nat)) = 32%nat
            /\ fst (@decryptValue constant_platform c 0%nat) = Ok [1; 2; 3].
Proof.
  apply (@decryptValue_encryptValue constant_platform [1; 2; 3] 3.2%float 0%nat 0%nat).
  - repeat constructor; unfold is_byte; lia.
  - intros x. reflexivity.
  - reflexivity.
Defined.

Lemma performMultiplication_relinearizes_witness :
  exists final,
    performMultiplication [fresh_ciphertext [1]; fresh_ciphertext [2]; fresh_ciphertext [3]]
    = Ok final
    /\ size final = 2.
Proof.
  destruct (performMultiplication_relinearizes
              [fresh_ciphertext [1]; fresh_ciphertext [2]; fresh_ciphertext [3]])
    as (first & rest & final & _ & Hfinal & _ & _ & _ & Htwo).
  - simpl. lia.
  - exists final. split; [exact Hfinal|].
    apply Htwo. repeat constructor.
Defined.

Lemma unpackValues_packValues_witness :
  exists packed,
    packValues [[]; [1; 2; 3]; []] = Some packed
    /\ packed = packed_format [[]; [1; 2; 3]; []]
    /\ unpackValues 3 packed = Some [[]; [1; 2; 3]; []].
Proof.
  apply (unpackValues_packValues [[]; [1; 2; 3]; []] 3).
  - repeat constructor; unfold short_buffer; simpl; lia.
  - simpl. lia.
Defined.

Lemma unpackValues_truncates_witness :
  unpackValues 2 (packed_format [[7]] ++ be32 5 ++ [1; 2]) = Some ([[7]] ++ [[1; 2]]).
Proof.
  apply (unpackValues_truncates [[7]] 5 [1; 2] 2).
  - repeat constructor; unfold short_buffer; simpl; lia.
  - simpl. lia.
  - simpl. lia.
Defined.

(** * Further properties of the code *)

(** ** Negation and subtraction *)

Lemma padded_sum_lookup (a b : list Z) (k : nat) :
  (k < Nat.max (length a) (length b))%nat ->
  padded_sum a b !! k = Some ((default 0 (a !! k) + default 0 (b !! k)) mod 256).
Proof.
  intros Hk. unfold padded_sum. rewrite lookup_zip_with, !zero_pad_lookup.
  repeat case_decide; try lia;
    repeat match goal with
    | Hlt : (k < length ?l)%nat |- _ =>
        destruct (lookup_lt_is_Some_2 l k Hlt) as [? ->]; clear Hlt
    | Hge : ¬ (k < length ?l)%nat |- _ =>
        rewrite (lookup_ge_None_2 l k) by lia; clear Hge
    end; simpl; rewrite ?Z.add_0_r; done.
Qed.

Lemma negateMockValue_data (v : Ciphertext) :
  data (negateMockValue v) = (fun x => (256 - x) mod 256) <$> data v.
Proof.
  unfold negateMockValue. cbn [data]. apply list_eq. intros k.
  rewrite (tabulate_lookup (fun i => Z.rem (256 - at_ (data v) (Z.of_nat i)) 256)).
  rewrite list_lookup_fmap, rem_then_wrap, at_nat. unfold new_Uint8Array.
  case_decide as Hk.
  - destruct Hk as [Hk _]. by destruct (lookup_lt_is_Some_2 _ _ Hk) as [x ->].
  - rewrite (lookup_ge_None_2 (data v) k) by lia. simpl.
    apply lookup_replicate_None. lia.
Qed.

(** X1.  Negation is its own inverse on byte payloads, and a ciphertext plus its
    negation has the all-zero payload; every negation multiplies the noise by
    the ADD factor 1.1 (the NEGATE factor 1.05 is not used). *)
Theorem negateMockValue_inverse (v : Ciphertext) :
  (Forall is_byte (data v) -> data (negateMockValue (negateMockValue v)) = data v)
  /\ data (performHomomorphicAdd v (negateMockValue v)) = replicate (length (data v)) 0
  /\ data (performHomomorphicAdd (negateMockValue v) v) = replicate (length (data v)) 0
  /\ noise (negateMockValue v) = (noise v * 1.1)%float
  /\ noise (negateMockValue (negateMockValue v)) = (noise v * 1.1 * 1.1)%float
  /\ depth (negateMockValue v) = depth v
  /\ size (negateMockValue v) = size v.
Proof.
  split.
  { intros Hbytes. rewrite !negateMockValue_data, <- list_fmap_compose.
    rewrite <- (list_fmap_id (data v)) at 2.
    apply Forall_fmap_ext_1. eapply Forall_impl; [exact Hbytes|].
    intros x Hx. unfold is_byte in Hx. simpl.
    rewrite Zminus_mod_idemp_r. replace (256 - (256 - x)) with x by lia.
    by apply Z.mod_small. }
  assert (Hzero : forall x, (x + (256 - x) mod 256) mod 256 = 0).
  { intros x. rewrite Zplus_mod_idemp_r. by replace (x + (256 - x)) with 256 by lia. }
  assert (Hlen : length (data (negateMockValue v)) = length (data v)).
  { by rewrite negateMockValue_data, length_fmap. }
  split; [|split; [|done]].
  - rewrite performHomomorphicAdd_data. apply list_eq. intros k.
    destruct (Nat.lt_ge_cases k (length (data v))) as [Hk|Hk].
    + rewrite padded_sum_lookup by (rewrite Hlen; lia).
      rewrite lookup_replicate_2 by done.
      rewrite negateMockValue_data, list_lookup_fmap.
      destruct (lookup_lt_is_Some_2 _ _ Hk) as [x ->]. simpl. by rewrite Hzero.
    + rewrite (lookup_ge_None_2 (replicate _ _)) by (rewrite length_replicate; lia).
      apply lookup_ge_None_2. rewrite length_padded_sum, Hlen. lia.
  - rewrite performHomomorphicAdd_data. apply list_eq. intros k.
    destruct (Nat.lt_ge_cases k (length (data v))) as [Hk|Hk].
    + rewrite padded_sum_lookup by (rewrite Hlen; lia).
      rewrite lookup_replicate_2 by done.
      rewrite negateMockValue_data, list_lookup_fmap.
      destruct (lookup_lt_is_Some_2 _ _ Hk) as [x ->]. simpl.
      by rewrite Z.add_comm, Hzero.
    + rewrite (lookup_ge_None_2 (replicate _ _)) by (rewrite length_replicate; lia).
      apply lookup_ge_None_2. rewrite length_padded_sum, Hlen. lia.
Qed.

(** X2.  performSubtraction of exactly two ciphertexts returns the elementwise
    difference modulo 256 over the longer length (the shorter payload padded
    with zeros), with noise [a.noise + b.noise * 1.1 + 1.1]; any other number
    of inputs is refused. *)
Theorem performSubtraction_payload :
  (forall a b,
     exists r,
       performSubtraction [a; b] = Ok r
       /\ length (data r) = Nat.max (length (data a)) (length (data b))
       /\ (forall k, (k < Nat.max (length (data a)) (length (data b)))%nat ->
             data r !! k
             = Some ((default 0 (data a !! k) - default 0 (data b !! k)) mod 256))
       /\ noise r = (noise a + noise b * 1.1 + 1.1)%float
       /\ depth r = Z.max (depth a) (depth b)
       /\ size r = size a)
  /\ (forall inputs,
        length inputs <> 2%nat ->
        performSubtraction inputs = Throw "Subtraction requires exactly 2 inputs").
Proof.
  split.
  - intros a b. eexists. split; [reflexivity|].
    assert (Hlen : length (data (negateMockValue b)) = length (data b)).
    { by rewrite negateMockValue_data, length_fmap. }
    split; [rewrite performHomomorphicAdd_data, length_padded_sum; by rewrite Hlen|].
    split; [|done].
    intros k Hk. rewrite performHomomorphicAdd_data.
    rewrite padded_sum_lookup by (rewrite Hlen; lia). f_equal.
    rewrite negateMockValue_data, list_lookup_fmap.
    destruct (data b !! k) as [y|]; simpl.
    + rewrite Zplus_mod_idemp_r.
      replace (default 0 (data a !! k) + (256 - y))
        with ((default 0 (data a !! k) - y) + 1 * 256) by lia.
      by rewrite Z_mod_plus_full.
    + by rewrite Z.add_0_r, Z.sub_0_r.
  - intros [|a [|b [|c rest]]] Hlen; simpl in *; done.
Qed.

(** ** Rotation *)

Lemma store_index (a : list Z) (j v : Z) :
  0 <= j -> store a j v = <[Z.to_nat j := ToUint8 v]> a.
Proof. intros Hj. rewrite <- (Z2Nat.id j) at 1 by done. apply store_nat. Qed.

Lemma store_negative (a : list Z) (j v : Z) : j < 0 -> store a j v = a.
Proof. intros Hj. unfold store. by destruct (Z.leb_spec 0 j); [lia|]. Qed.

Lemma rotate_loop_forward (d : list Z) (r : Z) (n k : nat) :
  0 <= r < Z.of_nat (length d) -> (n <= length d)%nat -> (k < length d)%nat ->
  for_loop n
    (fun i acc => store acc (Z.rem (Z.of_nat i + r) (Z.of_nat (length d)))
                    (at_ d (Z.of_nat i)))
    (new_Uint8Array (length d)) !! k
  = if decide ((Z.of_nat k - r) mod Z.of_nat (length d) < Z.of_nat n)
    then Some (ToUint8 (default 0 (d !! Z.to_nat ((Z.of_nat k - r) mod Z.of_nat (length d)))))
    else Some 0.
Proof.
  intros Hr Hn Hk. unfold new_Uint8Array. set (len := Z.of_nat (length d)) in *.
  assert (Hlen : 0 < len) by lia.
  induction n as [|n IH].
  - rewrite for_loop_0. rewrite decide_False.
    + by apply lookup_replicate_2.
    + pose proof (Z.mod_pos_bound (Z.of_nat k - r) len Hlen). lia.
  - rewrite for_loop_S.
    rewrite Z.rem_mod_nonneg by lia.
    pose proof (Z.mod_pos_bound (Z.of_nat n + r) len Hlen) as Hj.
    rewrite store_index by lia.
    rewrite list_lookup_insert.
    rewrite for_loop_length by (intros; apply length_store).
    rewrite length_replicate.
    rewrite IH by lia. rewrite at_nat.
    assert (Hback : ((Z.of_nat n + r) mod len - r) mod len = Z.of_nat n).
    { rewrite Zminus_mod_idemp_l.
      replace (Z.of_nat n + r - r) with (Z.of_nat n) by lia.
      apply Z.mod_small. lia. }
    assert (Hforth : (Z.of_nat k - r) mod len = Z.of_nat n ->
                     Z.to_nat ((Z.of_nat n + r) mod len) = k).
    { intros <-. rewrite Zplus_mod_idemp_l.
      replace (Z.of_nat k - r + r) with (Z.of_nat k) by lia.
      rewrite Z.mod_small by lia. lia. }
    destruct (decide (_ ∧ _)) as [Hhit|Hhit].
    + destruct Hhit as [Hjk _].
      assert (Hm : (Z.of_nat k - r) mod len = Z.of_nat n).
      { rewrite <- Hjk. rewrite Z2Nat.id by lia. exact Hback. }
      rewrite Hm, Nat2Z.id. rewrite decide_True by lia. done.
    + assert (Hm : (Z.of_nat k - r) mod len <> Z.of_nat n).
      { intros Hm. apply Hhit. split; [by apply Hforth | lia]. }
      repeat case_decide; try lia; done.
Qed.

Lemma rotate_loop_backward (d : list Z) (m n k : nat) :
  (m < length d)%nat -> (n <= length d)%nat -> (k < length d)%nat ->
  for_loop n
    (fun i acc => store acc (Z.rem (Z.of_nat i + - Z.of_nat m) (Z.of_nat (length d)))
                    (at_ d (Z.of_nat i)))
    (new_Uint8Array (length d)) !! k
  = if decide (k + m < n)%nat
    then Some (ToUint8 (default 0 (d !! (k + m)%nat)))
    else Some 0.
Proof.
  intros Hm Hn Hk. unfold new_Uint8Array. induction n as [|n IH].
  - rewrite for_loop_0. rewrite decide_False by lia.
    by apply lookup_replicate_2.
  - rewrite for_loop_S.
    destruct (Nat.lt_ge_cases n m) as [Hlow|Hhigh].
    + replace (Z.of_nat n + - Z.of_nat m) with (- (Z.of_nat m - Z.of_nat n)) by lia.
      rewrite Z.rem_opp_l', Z.rem_small by lia.
      rewrite store_negative by lia. rewrite IH by lia.
      repeat case_decide; try lia; done.
    + rewrite Z.rem_small by lia. rewrite store_index by lia.
      rewrite list_lookup_insert.
      rewrite for_loop_length by (intros; apply length_store).
      rewrite length_replicate.
      rewrite IH by lia. rewrite at_nat.
      destruct (decide (_ ∧ _)) as [Hhit|Hhit].
      * destruct Hhit as [Hjk _]. rewrite decide_True by lia.
        replace (k + m)%nat with n by lia. done.
      * repeat case_decide; try lia; done.
Qed.

Lemma rotateMockValue_forward (v : Ciphertext) (amount : Z) :
  0 <= amount -> Forall is_byte (data v) ->
  data (rotateMockValue v amount) = rotate_right amount (data v).
Proof.
  intros Hamount Hbytes. unfold rotateMockValue, rotate_right. cbn [data].
  set (d := data v) in *.
  destruct (Nat.eq_dec (length d) 0%nat) as [Hempty|Hne].
  { rewrite Hempty. reflexivity. }
  assert (Hlen : 0 < Z.of_nat (length d)) by lia.
  rewrite Z.rem_mod_nonneg by lia.
  pose proof (Z.mod_pos_bound amount (Z.of_nat (length d)) Hlen) as Hr.
  apply list_eq. intros k. rewrite list_lookup_fmap.
  destruct (Nat.lt_ge_cases k (length d)) as [Hk|Hk].
  - rewrite rotate_loop_forward by lia.
    rewrite Zminus_mod_idemp_r.
    pose proof (Z.mod_pos_bound (Z.of_nat k - amount) (Z.of_nat (length d)) Hlen).
    rewrite decide_True by lia.
    rewrite lookup_seq_lt by done. simpl. f_equal.
    apply ToUint8_id. by apply lookup_byte.
  - rewrite lookup_seq_ge by done. simpl.
    apply lookup_ge_None_2.
    rewrite for_loop_length by (intros; apply length_store).
    unfold new_Uint8Array. rewrite length_replicate. lia.
Qed.

Lemma rotate_right_lookup (r : Z) (d : list Z) (k : nat) :
  (k < length d)%nat ->
  rotate_right r d !! k = d !! Z.to_nat ((Z.of_nat k - r) mod Z.of_nat (length d)).
Proof.
  intros Hk. unfold rotate_right. rewrite list_lookup_fmap, lookup_seq_lt by done.
  simpl.
  pose proof (Z.mod_pos_bound (Z.of_nat k - r) (Z.of_nat (length d)) ltac:(lia)) as Hm.
  destruct (lookup_lt_is_Some_2 d (Z.to_nat ((Z.of_nat k - r) mod Z.of_nat (length d))))
    as [x Hx]; [lia|].
  by rewrite Hx.
Qed.

Lemma length_rotate_right (r : Z) (d : list Z) : length (rotate_right r d) = length d.
Proof. unfold rotate_right. by rewrite length_fmap, length_seq. Qed.

Lemma rotate_right_rotate (r : Z) (d : list Z) :
  rotate_right r d = rotate (Z.to_nat ((- r) mod Z.of_nat (length d))) d.
Proof.
  apply list_eq. intros k.
  destruct (Nat.lt_ge_cases k (length d)) as [Hk|Hk].
  - rewrite rotate_right_lookup, lookup_rotate_r by done. f_equal.
    unfold rotate_nat_add.
    pose proof (Z.mod_pos_bound (- r) (Z.of_nat (length d)) ltac:(lia)).
    rewrite Z2Nat.id by lia. rewrite Zplus_mod_idemp_l. do 2 f_equal. lia.
  - rewrite !lookup_ge_None_2; [done| |].
    + by rewrite length_rotate.
    + by rewrite length_rotate_right.
Qed.

Lemma rotate_right_compose (a b : Z) (d : list Z) :
  rotate_right b (rotate_right a d) = rotate_right (a + b) d.
Proof.
  apply list_eq. intros k.
  destruct (Nat.lt_ge_cases k (length d)) as [Hk|Hk].
  - pose proof (Z.mod_pos_bound (Z.of_nat k - b) (Z.of_nat (length d)) ltac:(lia)).
    rewrite rotate_right_lookup by (by rewrite length_rotate_right).
    rewrite length_rotate_right.
    rewrite rotate_right_lookup by lia.
    rewrite rotate_right_lookup by done.
    rewrite Z2Nat.id by lia. rewrite Zminus_mod_idemp_l. do 3 f_equal. lia.
  - rewrite !lookup_ge_None_2; [done| |]; rewrite !length_rotate_right; done.
Qed.

Lemma rotate_right_bytes (r : Z) (d : list Z) :
  Forall is_byte d -> Forall is_byte (rotate_right r d).
Proof.
  intros Hd. unfold rotate_right. apply Forall_fmap, Forall_forall.
  intros k _. simpl. by apply lookup_byte.
Qed.

(** X3.  For an amount that is not negative, rotateMockValue moves every byte of a
    byte payload [amount] places to the right, cyclically: byte [i] lands at
    [(i + amount) mod len], no byte is lost or duplicated, rotating twice is
    rotating by the sum, and a multiple of the length changes nothing. *)
Theorem rotateMockValue_cyclic (v : Ciphertext) (amount : Z) :
  0 <= amount -> Forall is_byte (data v) ->
  data (rotateMockValue v amount) = rotate_right amount (data v)
  /\ length (data (rotateMockValue v amount)) = length (data v)
  /\ (forall i, (i < length (data v))%nat ->
        data (rotateMockValue v amount)
          !! Z.to_nat ((Z.of_nat i + amount) mod Z.of_nat (length (data v)))
        = data v !! i)
  /\ data (rotateMockValue v amount) ≡ₚ data v
  /\ (forall b, 0 <= b ->
        data (rotateMockValue (rotateMockValue v amount) b)
        = data (rotateMockValue v (amount + b)))
  /\ (amount mod Z.of_nat (length (data v)) = 0 ->
        data (rotateMockValue v amount) = data v)
  /\ noise (rotateMockValue v amount) = (noise v * 1.2)%float.
Proof.
  intros Hamount Hbytes.
  pose proof (rotateMockValue_forward v amount Hamount Hbytes) as Hdata.
  split; [exact Hdata|].
  split; [by rewrite Hdata, length_rotate_right|].
  split.
  { intros i Hi. rewrite Hdata.
    pose proof (Z.mod_pos_bound (Z.of_nat i + amount) (Z.of_nat (length (data v)))
                  ltac:(lia)) as Hj.
    rewrite rotate_right_lookup by lia.
    rewrite Z2Nat.id by lia. rewrite Zminus_mod_idemp_l.
    replace (Z.of_nat i + amount - amount) with (Z.of_nat i) by lia.
    rewrite Z.mod_small by lia. by rewrite Nat2Z.id. }
  split.
  { rewrite Hdata, rotate_right_rotate. unfold rotate.
    rewrite Permutation_app_comm. by rewrite take_drop. }
  split.
  { intros b Hb.
    rewrite (rotateMockValue_forward (rotateMockValue v amount) b Hb).
    - rewrite Hdata, rotate_right_compose.
      symmetry. apply rotateMockValue_forward; [lia|done].
    - rewrite Hdata. by apply rotate_right_bytes. }
  split; [|done].
  intros Hmultiple. rewrite Hdata. apply list_eq. intros k.
  destruct (Nat.lt_ge_cases k (length (data v))) as [Hk|Hk].
  - rewrite rotate_right_lookup by done.
    rewrite Zminus_mod, Hmultiple, Z.sub_0_r, Z.mod_mod by lia.
    rewrite Z.mod_small by lia. by rewrite Nat2Z.id.
  - rewrite !lookup_ge_None_2; [done|done|by rewrite length_rotate_right].
Qed.

(** X4.  For a negative amount rotateMockValue does not rotate: with
    [m = (- amount) mod len], the first [m] bytes of a non-empty byte payload
    are dropped (their index is negative and the write is ignored) and [m]
    zero bytes are appended. *)
Theorem rotateMockValue_negative_amount (v : Ciphertext) (amount : Z) :
  amount < 0 -> data v <> [] -> Forall is_byte (data v) ->
  data (rotateMockValue v amount)
  = drop (Z.to_nat ((- amount) mod Z.of_nat (length (data v)))) (data v)
      ++ replicate (Z.to_nat ((- amount) mod Z.of_nat (length (data v)))) 0.
Proof.
  intros Hamount Hne Hbytes. unfold rotateMockValue. cbn [data].
  set (d := data v) in *.
  assert (Hlen : 0 < Z.of_nat (length d)) by (destruct d; simpl in *; [done|lia]).
  pose proof (Z.mod_pos_bound (- amount) (Z.of_nat (length d)) Hlen) as Hm.
  set (m := Z.to_nat ((- amount) mod Z.of_nat (length d))).
  assert (Hnorm : Z.rem amount (Z.of_nat (length d)) = - Z.of_nat m).
  { replace amount with (- - amount) at 1 by lia.
    rewrite Z.rem_opp_l', Z.rem_mod_nonneg by lia. unfold m. lia. }
  rewrite Hnorm.
  apply list_eq. intros k.
  destruct (Nat.lt_ge_cases k (length d)) as [Hk|Hk].
  - rewrite rotate_loop_backward by (unfold m; lia).
    case_decide as Hin.
    + rewrite lookup_app_l by (rewrite length_drop; lia).
      rewrite lookup_drop, (Nat.add_comm m k).
      destruct (lookup_lt_is_Some_2 d (k + m)) as [x Hx]; [lia|].
      rewrite Hx. simpl. f_equal. apply ToUint8_id.
      exact (Forall_lookup_1 _ _ _ _ Hbytes Hx).
    + rewrite lookup_app_r by (rewrite length_drop; lia).
      symmetry. apply lookup_replicate_2. rewrite length_drop. lia.
  - rewrite !lookup_ge_None_2; [done| |].
    + rewrite length_app, length_drop, length_replicate. unfold m. lia.
    + rewrite for_loop_length by (intros; apply length_store).
      unfold new_Uint8Array. rewrite length_replicate. lia.
Qed.

(** ** Addition and multiplication of several ciphertexts *)

Lemma padded_sum_default (a b : list Z) (k : nat) :
  default 0 (padded_sum a b !! k) = (default 0 (a !! k) + default 0 (b !! k)) mod 256.
Proof.
  destruct (Nat.lt_ge_cases k (Nat.max (length a) (length b))) as [Hk|Hk].
  - by rewrite padded_sum_lookup.
  - rewrite !lookup_ge_None_2; [done|lia|lia|by rewrite length_padded_sum].
Qed.

Lemma padded_sum_bytes (a b : list Z) : Forall is_byte (padded_sum a b).
Proof.
  apply Forall_lookup. intros k x Hx.
  assert (Hk : (k < Nat.max (length a) (length b))%nat).
  { rewrite <- length_padded_sum. by eapply lookup_lt_Some. }
  rewrite padded_sum_lookup in Hx by done. injection Hx as <-.
  unfold is_byte. apply Z.mod_pos_bound. lia.
Qed.

Lemma column_sum_cons (payload : list Z) (payloads : list (list Z)) (k : nat) :
  column_sum (payload :: payloads) k = default 0 (payload !! k) + column_sum payloads k.
Proof. reflexivity. Qed.

Lemma longest_cons (payload : list Z) (payloads : list (list Z)) :
  longest (payload :: payloads) = Nat.max (length payload) (longest payloads).
Proof. reflexivity. Qed.

Lemma add_fold_payload (rest : list Ciphertext) (a : Ciphertext) :
  length (data (fold_left performHomomorphicAdd rest a))
  = Nat.max (length (data a)) (longest (data <$> rest))
  /\ (forall k,
        default 0 (data (fold_left performHomomorphicAdd rest a) !! k) mod 256
        = (default 0 (data a !! k) + column_sum (data <$> rest) k) mod 256)
  /\ size (fold_left performHomomorphicAdd rest a) = size a.
Proof.
  revert a. induction rest as [|x rest IH]; intros a.
  - split; [symmetry; apply Nat.max_0_r|]. split; [|done]. intros k.
    unfold column_sum. simpl. by rewrite Z.add_0_r.
  - cbn [fold_left]. destruct (IH (performHomomorphicAdd a x)) as (Hlen & Hcol & Hsize).
    split; [|split].
    + rewrite Hlen, performHomomorphicAdd_data, length_padded_sum.
      rewrite fmap_cons, longest_cons. lia.
    + intros k. rewrite Hcol, performHomomorphicAdd_data, padded_sum_default.
      rewrite fmap_cons, column_sum_cons, Zplus_mod_idemp_l. f_equal. lia.
    + by rewrite Hsize.
Qed.

Lemma add_fold_depth (rest : list Ciphertext) (a : Ciphertext) :
  depth a <= depth (fold_left performHomomorphicAdd rest a)
  /\ Forall (fun x => depth x <= depth (fold_left performHomomorphicAdd rest a)) rest
  /\ (depth (fold_left performHomomorphicAdd rest a) = depth a
      \/ Exists (fun x => depth (fold_left performHomomorphicAdd rest a) = depth x) rest).
Proof.
  revert a. induction rest as [|x rest IH]; intros a.
  - simpl. split; [lia|]. split; [constructor|by left].
  - cbn [fold_left]. destruct (IH (performHomomorphicAdd a x)) as (Hle & Hall & Hex).
    change (depth (performHomomorphicAdd a x)) with (Z.max (depth a) (depth x)) in *.
    split; [lia|]. split; [constructor; [lia|done]|].
    destruct Hex as [Hex|Hex]; [|right; by constructor 2].
    destruct (Z.max_spec (depth a) (depth x)) as [[_ Hm]|[_ Hm]]; rewrite Hm in Hex.
    + right. by constructor 1.
    + by left.
Qed.

Lemma add_fold_bytes (rest : list Ciphertext) (a : Ciphertext) :
  Forall is_byte (data a) ->
  Forall is_byte (data (fold_left performHomomorphicAdd rest a)).
Proof.
  revert a. induction rest as [|x rest IH]; intros a Ha; [done|].
  cbn [fold_left]. apply IH. rewrite performHomomorphicAdd_data. apply padded_sum_bytes.
Qed.

Lemma add_all_shape (first second : Ciphertext) (rest : list Ciphertext) :
  let inputs := first :: second :: rest in
  let r := fold_left performHomomorphicAdd (second :: rest) first in
  length (data r) = longest (data <$> inputs)
  /\ (forall k, (k < longest (data <$> inputs))%nat ->
        data r !! k = Some (column_sum (data <$> inputs) k mod 256))
  /\ Forall (fun x => depth x <= depth r) inputs
  /\ Exists (fun x => depth r = depth x) inputs
  /\ size r = size first.
Proof.
  intros inputs r. unfold r.
  cbn [fold_left].
  destruct (add_fold_payload rest (performHomomorphicAdd first second))
    as (Hlen & Hcol & Hsize).
  destruct (add_fold_depth rest (performHomomorphicAdd first second))
    as (Hle & Hall & Hex).
  pose proof (add_fold_bytes rest (performHomomorphicAdd first second)) as Hbytes.
  rewrite performHomomorphicAdd_data in Hbytes.
  specialize (Hbytes (padded_sum_bytes _ _)).
  change (depth (performHomomorphicAdd first second))
    with (Z.max (depth first) (depth second)) in *.
  assert (Hlongest : length (data (fold_left performHomomorphicAdd rest
                                     (performHomomorphicAdd first second)))
                     = longest (data <$> inputs)).
  { rewrite Hlen, performHomomorphicAdd_data, length_padded_sum.
    unfold inputs. rewrite !fmap_cons, !longest_cons. lia. }
  split; [exact Hlongest|].
  split.
  { intros k Hk. rewrite <- Hlongest in Hk.
    destruct (lookup_lt_is_Some_2 _ _ Hk) as [x Hx].
    specialize (Hcol k).
    rewrite performHomomorphicAdd_data, padded_sum_default, Zplus_mod_idemp_l in Hcol.
    rewrite Hx in Hcol. change (default 0 (Some x)) with x in Hcol.
    pose proof (Forall_lookup_1 _ _ _ _ Hbytes Hx) as Hbyte.
    rewrite Z.mod_small in Hcol by exact Hbyte.
    rewrite Hx, Hcol.
    unfold inputs. rewrite !fmap_cons, !column_sum_cons. do 2 f_equal. lia. }
  split.
  { unfold inputs. repeat constructor; [lia|lia|done]. }
  split.
  { unfold inputs. destruct Hex as [Hex|Hex].
    - destruct (Z.max_spec (depth first) (depth second)) as [[_ Hm]|[_ Hm]];
        rewrite Hm in Hex.
      + constructor 2. by constructor 1.
      + by constructor 1.
    - constructor 2. by constructor 2. }
  by rewrite Hsize.
Qed.

(** X5.  performAddition of two or more ciphertexts returns the column sums of all
    the payloads modulo 256, over the length of the longest payload; the depth
    of the sum is the largest depth among the inputs and its component count
    that of the first input.  Fewer than two inputs are refused. *)
Theorem performAddition_columns :
  (forall first second rest,
     let inputs := first :: second :: rest in
     exists r,
       performAddition inputs = Ok r
       /\ length (data r) = longest (data <$> inputs)
       /\ (forall k, (k < longest (data <$> inputs))%nat ->
             data r !! k = Some (column_sum (data <$> inputs) k mod 256))
       /\ Forall (fun x => depth x <= depth r) inputs
       /\ Exists (fun x => depth r = depth x) inputs
       /\ size r = size first)
  /\ (forall inputs,
        (length inputs < 2)%nat ->
        performAddition inputs = Throw "Addition requires at least 2 inputs").
Proof.
  split.
  - intros first second rest inputs. eexists. split; [reflexivity|].
    apply add_all_shape.
  - intros [|a [|b rest]] Hlen; simpl in *; [done|done|lia].
Qed.





(** ** What a ciphertext of encryptValue reveals, and what decryptValue checks *)

Section KeystreamProofs.
Context `{Platform}.

Lemma encryptValue_payload (m : list Z) (sigma : float) (rng : Rng) :
  Forall is_byte m ->
  (forall x, length (keccak256 x) = 32%nat) ->
  exists c,
    fst (encryptValue m sigma rng) = Ok c
    /\ (forall k, (k < length m)%nat ->
          data c !! k
          = Some (Z.lxor (default 0 (m !! k))
                         (default 0 (fst (generateNoise sigma rng) !! (k mod 32)%nat))))
    /\ drop (length m) (data c) = keccak256 (m ++ fst (generateNoise sigma rng)).
Proof.
  intros Hm Hdigest. unfold encryptValue.
  pose proof (generateNoise_loop_length 32 sigma rng) as Hlen.
  pose proof (generateNoise_loop_bytes 32 sigma rng) as Hbytes.
  fold (generateNoise sigma rng) in Hlen, Hbytes.
  destruct (generateNoise sigma rng) as [ks rng1]. simpl in *.
  set (body := xor_keystream m ks (length m) (new_Uint8Array (length m + 32))).
  assert (Hbody : length body = (length m + 32)%nat).
  { unfold body, new_Uint8Array. by rewrite length_xor_keystream, length_replicate. }
  unfold Uint8Array_set. rewrite Hdigest.
  case_decide; [|lia].
  eexists. split; [reflexivity|]. cbn [data]. split.
  - intros k Hk. rewrite lookup_app_l by (rewrite length_take; lia).
    rewrite lookup_take_lt by done.
    unfold body, new_Uint8Array. rewrite xor_keystream_lookup, length_replicate.
    case_decide; [|lia]. rewrite Hlen. f_equal.
    pose proof (lookup_byte m k Hm) as Hmk.
    pose proof (lookup_byte ks (k mod 32) Hbytes) as Hkk.
    rewrite js_xor_byte by done. apply ToUint8_id. by apply lxor_byte.
  - rewrite drop_app_length'; [|rewrite length_take; lia].
    rewrite (drop_ge body) by lia. apply app_nil_r.
Qed.

(** X7.  encryptValue uses its 32 keystream bytes again every 32 positions: in the
    ciphertext of a plaintext longer than 32 bytes, two ciphertext bytes 32
    positions apart combine by xor to the xor of the two plaintext bytes,
    whatever the keystream was; the last 32 bytes of the ciphertext are the
    digest of plaintext and keystream. *)
Theorem encryptValue_keystream_period (m : list Z) (sigma : float) (rng : Rng) :
  Forall is_byte m ->
  (forall x, length (keccak256 x) = 32%nat) ->
  exists c,
    fst (encryptValue m sigma rng) = Ok c
    /\ (forall i, (i + 32 < length m)%nat ->
          Z.lxor (default 0 (data c !! i)) (default 0 (data c !! (i + 32)%nat))
          = Z.lxor (default 0 (m !! i)) (default 0 (m !! (i + 32)%nat)))
    /\ drop (length m) (data c) = keccak256 (m ++ fst (generateNoise sigma rng)).
Proof.
  intros Hm Hdigest.
  destruct (encryptValue_payload m sigma rng Hm Hdigest) as (c & Hc & Hbody & Htag).
  exists c. split; [exact Hc|]. split; [|exact Htag].
  intros i Hi. rewrite !Hbody by lia.
  replace ((i + 32) mod 32)%nat with (i mod 32)%nat
    by (rewrite <- (Nat.Div0.add_mod_idemp_r i 32 32), Nat.Div0.mod_same; f_equal; lia).
  cbn [default from_option id].
  generalize (from_option id 0 (m !! i)) (from_option id 0 (m !! (i + 32)%nat))
    (from_option id 0 (fst (generateNoise sigma rng) !! (i mod 32)%nat)).
  intros x y n. apply Z.bits_inj'. intros b _. rewrite !Z.lxor_spec.
  by destruct (Z.testbit x b), (Z.testbit y b), (Z.testbit n b).
Qed.

Lemma xor_keystream_prefix (src src' noise : list Z) (n : nat) (dst : list Z) :
  take n src = take n src' ->
  xor_keystream src noise n dst = xor_keystream src' noise n dst.
Proof.
  intros Hsame. apply list_eq. intros k. rewrite !xor_keystream_lookup.
  case_decide as Hk; [|done]. destruct Hk as [Hk _].
  by rewrite <- (lookup_take_lt src n k), Hsame, lookup_take_lt.
Qed.

(** X8.  decryptValue never reads the last 32 bytes of a ciphertext: two
    ciphertexts of the same length and noise that agree except in those bytes
    decrypt alike, so a changed tag is not noticed.  A payload shorter than 32
    bytes is refused before any random draw; every other payload is accepted
    and gives 32 bytes less than it holds. *)
Theorem decryptValue_ignores_tag :
  (forall c c' rng,
     length (data c) = length (data c') ->
     take (length (data c) - 32) (data c) = take (length (data c) - 32) (data c') ->
     noise c = noise c' ->
     decryptValue c rng = decryptValue c' rng)
  /\ (forall c rng,
        (length (data c) < 32)%nat ->
        decryptValue c rng = (Throw "RangeError: Invalid typed array length", rng))
  /\ (forall c rng,
        (32 <= length (data c))%nat ->
        exists m, fst (decryptValue c rng) = Ok m
                  /\ length m = (length (data c) - 32)%nat).
Proof.
  split; [|split].
  - intros c c' rng Hlen Hsame Hnoise. unfold decryptValue.
    rewrite <- Hlen, <- Hnoise.
    destruct (Z.of_nat (length (data c)) - 32 <? 0); [done|].
    destruct (generateNoise (noise c) rng) as [ks rng1].
    f_equal. f_equal. apply xor_keystream_prefix.
    by replace (Z.to_nat (Z.of_nat (length (data c)) - 32))
      with (length (data c) - 32)%nat by lia.
  - intros c rng Hshort. unfold decryptValue.
    destruct (Z.ltb_spec (Z.of_nat (length (data c)) - 32) 0); [done|lia].
  - intros c rng Hlong. unfold decryptValue.
    destruct (Z.ltb_spec (Z.of_nat (length (data c)) - 32) 0); [lia|].
    destruct (generateNoise (noise c) rng) as [ks rng1].
    eexists. split; [reflexivity|].
    rewrite length_xor_keystream. unfold new_Uint8Array. rewrite length_replicate. lia.
Qed.
End KeystreamProofs.

(** ** performHomomorphicOperation: refusals and the shape of a result *)

Lemma map_result_encoded (parsed : list Serialized.t) :
  map_result deserializeCiphertext (Encoded <$> parsed)
  = Ok (parsed_ciphertext <$> parsed).
Proof.
  induction parsed as [|s parsed IH]; [done|].
  rewrite !fmap_cons. cbn [map_result deserializeCiphertext]. by rewrite IH.
Qed.

Lemma map_result_malformed (inputs : list Transport) :
  Malformed ∈ inputs ->
  map_result deserializeCiphertext inputs = Throw "Failed to deserialize ciphertext".
Proof.
  induction inputs as [|input inputs IH]; intros Hbad.
  - by apply elem_of_nil in Hbad.
  - destruct input as [s|]; [|done].
    apply elem_of_cons in Hbad as [Hbad|Hbad]; [done|].
    cbn [map_result deserializeCiphertext]. by rewrite IH.
Qed.

Lemma well_formed_inputs (inputs : list Transport) :
  Malformed ∉ inputs -> exists parsed, inputs = Encoded <$> parsed.
Proof.
  induction inputs as [|input inputs IH]; intros Hgood; [by exists []|].
  apply not_elem_of_cons in Hgood as [Hhead Hgood].
  destruct (IH Hgood) as [parsed ->].
  destruct input as [s|]; [|done]. by exists (s :: parsed).
Qed.

Section ServiceProofs.
Context `{Platform}.

Lemma calculateNoiseLevel_rng (ciphertext : NoiseArg) (rng : Rng) :
  snd (calculateNoiseLevel ciphertext rng) = snd (Math_random rng).
Proof. unfold calculateNoiseLevel. by destruct (Math_random rng). Qed.

Lemma report_operation_rng (type : string) (autoBootstrap : bool) (c : Ciphertext)
    (rng : Rng) :
  snd (report_operation type autoBootstrap c rng)
  = snd (Math_random (snd (Math_random rng))).
Proof.
  unfold report_operation.
  pose proof (calculateNoiseLevel_rng (ArgCiphertext c) rng) as H1.
  destruct (calculateNoiseLevel (ArgCiphertext c) rng) as [level rng1].
  simpl in H1. subst rng1.
  set (next := if _ && autoBootstrap then performBootstrapping c else c).
  pose proof (calculateNoiseLevel_rng (ArgCiphertext next) (snd (Math_random rng))) as H2.
  destruct (calculateNoiseLevel (ArgCiphertext next) _) as [level' rng2].
  exact H2.
Qed.

Lemma report_operation_result (type : string) (autoBootstrap : bool) (c : Ciphertext)
    (rng : Rng) :
  let r := fst (report_operation type autoBootstrap c rng) in
  FheComputationResult.operationType r = type
  /\ FheComputationResult.result r
     = serializeCiphertext
         (if FheComputationResult.bootstrapped r then bootstrapCiphertext c else c)
  /\ (autoBootstrap = false -> FheComputationResult.bootstrapped r = false).
Proof.
  unfold report_operation.
  destruct (calculateNoiseLevel (ArgCiphertext c) rng) as [level rng1].
  set (refresh := (FHE_CONSTANTS.MAX_NOISE_LEVEL <? level)%float).
  destruct (calculateNoiseLevel _ rng1) as [level' rng2]. simpl.
  split; [done|]. split; [done|].
  intros ->. apply andb_false_r.
Qed.

(** X9.  performHomomorphicOperation refuses, without a random draw: every
    request of a user without wallet, whatever the operation; for a user with
    a wallet, every request one of whose inputs does not deserialize, whatever
    the operation type and the number of inputs; and, when all inputs
    deserialize, an operation type outside the six of the [switch], an
    addition or multiplication of fewer than two inputs, a subtraction of
    other than two inputs, a negation or rotation of no input. *)
Theorem performHomomorphicOperation_refusals (operation : HomomorphicOperation.t)
    (rng : Rng) :
  let type := HomomorphicOperation.type operation in
  let inputs := HomomorphicOperation.inputs operation in
  performHomomorphicOperation None operation rng = (Throw "User wallet not found", rng)
  /\ (forall wallet, Malformed ∈ inputs ->
        performHomomorphicOperation (Some wallet) operation rng
        = (Throw "Failed to deserialize ciphertext", rng))
  /\ (forall wallet, Malformed ∉ inputs ->
        type ∉ ["add"; "multiply"; "subtract"; "negate"; "rotate"; "bootstrap"] ->
        performHomomorphicOperation (Some wallet) operation rng
        = (Throw ("Unsupported operation: " +:+ type), rng))
  /\ (forall wallet, Malformed ∉ inputs -> type = "add" -> (length inputs < 2)%nat ->
        performHomomorphicOperation (Some wallet) operation rng
        = (Throw "Addition requires at least 2 inputs", rng))
  /\ (forall wallet, Malformed ∉ inputs -> type = "multiply" -> (length inputs < 2)%nat ->
        performHomomorphicOperation (Some wallet) operation rng
        = (Throw "Multiplication requires at least 2 inputs", rng))
  /\ (forall wallet, Malformed ∉ inputs -> type = "subtract" -> length inputs <> 2%nat ->
        performHomomorphicOperation (Some wallet) operation rng
        = (Throw "Subtraction requires exactly 2 inputs", rng))
  /\ (forall wallet, type = "negate" \/ type = "rotate" -> inputs = [] ->
        exists e, performHomomorphicOperation (Some wallet) operation rng = (Throw e, rng)).
Proof.
  intros type inputs. split; [done|].
  unfold performHomomorphicOperation, dispatch_operation.
  destruct operation as [ty ins auto amount]. simpl in *. subst type inputs.
  split.
  { intros wallet Hbad. by rewrite map_result_malformed. }
  assert (Hparsed : forall (goal : Prop),
            Malformed ∉ ins ->
            (forall parsed, length parsed = length ins ->
               map_result deserializeCiphertext ins = Ok parsed -> goal) ->
            goal).
  { intros goal Hgood Hgoal.
    destruct (well_formed_inputs ins Hgood) as [parsed ->].
    apply (Hgoal (parsed_ciphertext <$> parsed)).
    - by rewrite !length_fmap.
    - apply map_result_encoded. }
  split.
  { intros wallet Hgood Hout. apply (Hparsed _ Hgood). intros parsed _ ->.
    rewrite !elem_of_cons, elem_of_nil in Hout.
    repeat (case_decide; [tauto|]). done. }
  split.
  { intros wallet Hgood -> Hcount. apply (Hparsed _ Hgood). intros parsed Hlen ->.
    rewrite <- Hlen in Hcount. simpl.
    destruct parsed as [|a [|b rest]]; simpl in *; [done|done|lia]. }
  split.
  { intros wallet Hgood -> Hcount. apply (Hparsed _ Hgood). intros parsed Hlen ->.
    rewrite <- Hlen in Hcount. simpl.
    destruct parsed as [|a [|b rest]]; simpl in *; [done|done|lia]. }
  split.
  { intros wallet Hgood -> Hcount. apply (Hparsed _ Hgood). intros parsed Hlen ->.
    rewrite <- Hlen in Hcount. simpl.
    destruct parsed as [|a [|b [|c rest]]]; simpl in *; done. }
  intros wallet [-> | ->] ->; simpl; by eexists.
Qed.

Lemma operation_report (wallet : string)
    (operation : HomomorphicOperation.t) (c : Ciphertext) (rng : Rng) :
  dispatch_operation operation = inl (Ok c) ->
  exists r,
    performHomomorphicOperation (Some wallet) operation rng
    = (Ok r, snd (Math_random (snd (Math_random rng))))
    /\ FheComputationResult.operationType r = HomomorphicOperation.type operation
    /\ Serialized.data (FheComputationResult.result r) = data c
    /\ Serialized.size (FheComputationResult.result r) = or_else (size c) 2
    /\ (FheComputationResult.bootstrapped r = true ->
          HomomorphicOperation.autoBootstrap operation = true
          /\ Serialized.depth (FheComputationResult.result r) = 0
          /\ Serialized.noise (FheComputationResult.result r) = FHE_CONSTANTS.BASE_NOISE
          /\ Serialized.bootstrapped (FheComputationResult.result r) = true)
    /\ (FheComputationResult.bootstrapped r = false ->
          FheComputationResult.result r = serializeCiphertext c).
Proof.
  intros Hdispatch. unfold performHomomorphicOperation. rewrite Hdispatch.
  pose proof (report_operation_rng (HomomorphicOperation.type operation)
                (HomomorphicOperation.autoBootstrap operation) c rng) as Hrng.
  pose proof (report_operation_result (HomomorphicOperation.type operation)
                (HomomorphicOperation.autoBootstrap operation) c rng) as Hres.
  destruct (report_operation _ _ c rng) as [r rng']. simpl in Hrng, Hres. subst rng'.
  destruct Hres as (Htype & Hresult & Hauto).
  exists r. split; [done|]. split; [done|].
  rewrite Hresult.
  destruct (FheComputationResult.bootstrapped r) eqn:Hb.
  - repeat split; try done.
    destruct (HomomorphicOperation.autoBootstrap operation); [done|].
    by specialize (Hauto eq_refl).
  - repeat split; done.
Qed.
(** X10.  An operation that the [switch] carries out costs exactly two random
    draws and reports its own type.  What it returns is the serialized result
    of the operation or, when the report says [bootstrapped], that result
    refreshed: payload and size unchanged, depth 0, noise 3.2.  Without
    [autoBootstrap] nothing is ever refreshed. *)
Theorem performHomomorphicOperation_report (wallet : string)
    (operation : HomomorphicOperation.t) (c : Ciphertext) (rng : Rng) :
  dispatch_operation operation = inl (Ok c) ->
  exists r,
    performHomomorphicOperation (Some wallet) operation rng
    = (Ok r, snd (Math_random (snd (Math_random rng))))
    /\ FheComputationResult.operationType r = HomomorphicOperation.type operation
    /\ Serialized.data (FheComputationResult.result r) = data c
    /\ Serialized.size (FheComputationResult.result r) = or_else (size c) 2
    /\ (FheComputationResult.bootstrapped r = true ->
          HomomorphicOperation.autoBootstrap operation = true
          /\ Serialized.depth (FheComputationResult.result r) = 0
          /\ Serialized.noise (FheComputationResult.result r) = FHE_CONSTANTS.BASE_NOISE
          /\ Serialized.bootstrapped (FheComputationResult.result r) = true)
    /\ (FheComputationResult.bootstrapped r = false ->
          FheComputationResult.result r = serializeCiphertext c).
Proof. apply operation_report. Qed.
End ServiceProofs.

(** ** executeCircuit, and the depth gate that is not there *)

Lemma loadInputs_encoded (parsed : list (string * Serialized.t))
    (wires : gmap string Ciphertext) :
  loadInputs (encoded_inputs parsed) wires
  = Ok (fold_left (fun wires entry => <[entry.1 := parsed_ciphertext entry.2]> wires)
          parsed wires).
Proof.
  revert wires. induction parsed as [|[n v] rest IH]; intros wires; [done|].
  unfold encoded_inputs. rewrite fmap_cons.
  cbn [loadInputs deserializeCiphertext fst snd fold_left]. apply IH.
Qed.

Lemma loadInputs_malformed (encryptedInputs : list (string * Transport))
    (wires : gmap string Ciphertext) (name : string) :
  (name, Malformed) ∈ encryptedInputs ->
  loadInputs encryptedInputs wires = Throw "Failed to deserialize ciphertext".
Proof.
  revert wires. induction encryptedInputs as [|[n v] rest IH]; intros wires Hbad.
  - by apply elem_of_nil in Hbad.
  - destruct v as [s|]; [|done].
    apply elem_of_cons in Hbad as [Hbad|Hbad]; [done|].
    cbn [loadInputs deserializeCiphertext]. by apply IH.
Qed.


Lemma loadInputs_keep (encryptedInputs : list (string * Transport))
    (wires wires' : gmap string Ciphertext) (name : string) :
  name ∉ encryptedInputs.*1 ->
  loadInputs encryptedInputs wires = Ok wires' ->
  wires' !! name = wires !! name.
Proof.
  revert wires. induction encryptedInputs as [|[n v] rest IH]; intros wires Hout.
  - by intros [= <-].
  - rewrite fmap_cons, not_elem_of_cons in Hout. destruct Hout as [Hn Hrest].
    destruct v as [s|]; cbn [loadInputs deserializeCiphertext]; [|done].
    intros Hload. rewrite (IH _ Hrest Hload). by apply lookup_insert_ne.
Qed.

Lemma bind_inputs_keep (parsed : list (string * Serialized.t))
    (wires : gmap string Ciphertext) (name : string) :
  name ∉ parsed.*1 ->
  fold_left (fun wires entry => <[entry.1 := parsed_ciphertext entry.2]> wires)
    parsed wires !! name
  = wires !! name.
Proof.
  revert wires. induction parsed as [|[n v] rest IH]; intros wires Hout; [done|].
  rewrite fmap_cons, not_elem_of_cons in Hout. destruct Hout as [Hn Hrest].
  cbn [fold_left]. rewrite IH by done. by apply lookup_insert_ne.
Qed.

Lemma bind_inputs_lookup (parsed : list (string * Serialized.t))
    (wires : gmap string Ciphertext) (name : string) (value : Serialized.t) :
  NoDup parsed.*1 ->
  (name, value) ∈ parsed ->
  fold_left (fun wires entry => <[entry.1 := parsed_ciphertext entry.2]> wires)
    parsed wires !! name
  = Some (parsed_ciphertext value).
Proof.
  revert wires. induction parsed as [|[n v] rest IH]; intros wires Hnodup Hin.
  - by apply elem_of_nil in Hin.
  - rewrite fmap_cons in Hnodup. apply NoDup_cons in Hnodup as [Hfresh Hnodup].
    cbn [fold_left]. apply elem_of_cons in Hin as [[= -> ->]|Hin].
    + rewrite bind_inputs_keep by done. apply lookup_insert_eq.
    + by apply IH.
Qed.

Lemma or_else_twice (x : Z) : or_else (or_else x 2) 2 = or_else x 2.
Proof.
  unfold or_else. destruct (Z.eqb_spec x 0) as [->|Hx]; [done|].
  by apply Z.eqb_neq in Hx as ->.
Qed.

Lemma or_else_zero (x : Z) : or_else x 0 = x.
Proof. unfold or_else. by destruct (Z.eqb_spec x 0) as [->|]. Qed.

Section ExecutorProofs.
Context `{Platform}.

(** The gate of the circuit of loadCircuitDefinition on two bound wires. *)
Lemma executeGate_add (system : string) (a b : Ciphertext) (rng : Rng) :
  exists r,
    executeGate (Some system) (gate "add" ["input1"; "input2"] "output")
      [Some a; Some b] rng
    = (Ok r, snd (Math_random (snd (Math_random rng))))
    /\ data r = padded_sum (data a) (data b)
    /\ size r = or_else (size a) 2
    /\ (depth r = Z.max (depth a) (depth b)
        \/ depth r = 0 /\ bootstrapped r = true).
Proof.
  unfold executeGate, gate.
  cbn [mapM id mbind option_bind mret option_ret CircuitGate.operation fmap list_fmap].
  set (a' := parsed_ciphertext (serializeCiphertext a)).
  set (b' := parsed_ciphertext (serializeCiphertext b)).
  set (operation := {| HomomorphicOperation.type := "add" |}).
  destruct (operation_report system operation (performHomomorphicAdd a' b') rng)
    as (r & Hrun & _ & Hdata & Hsize & Hfresh & Hplain); [reflexivity|].
  rewrite Hrun. cbn [deserializeCiphertext].
  eexists. split; [reflexivity|].
  cbn [parsed_ciphertext data size depth bootstrapped].
  rewrite Hdata, Hsize, performHomomorphicAdd_data.
  split; [done|]. split.
  { cbn [size performHomomorphicAdd a' parsed_ciphertext serializeCiphertext
         Serialized.size].
    by rewrite !or_else_twice. }
  destruct (FheComputationResult.bootstrapped r) eqn:Hb.
  - right. destruct (Hfresh eq_refl) as (_ & -> & _ & ->). by split.
  - left. rewrite (Hplain eq_refl).
    cbn [depth performHomomorphicAdd a' b' parsed_ciphertext serializeCiphertext
         Serialized.depth].
    by rewrite !or_else_zero.
Qed.

(** executeCircuit on inputs that all deserialize and bind input1 and
    input2. *)
Lemma executeCircuit_sum (wallet system circuitId : string)
    (parsed : list (string * Serialized.t)) (s1 s2 : Serialized.t) (rng : Rng) :
  NoDup parsed.*1 ->
  ("input1", s1) ∈ parsed ->
  ("input2", s2) ∈ parsed ->
  exists out,
    executeCircuit (Some wallet) (Some system) circuitId (encoded_inputs parsed) rng
    = (Ok [("output", out)], snd (Math_random (snd (Math_random rng))))
    /\ Serialized.data out = padded_sum (Serialized.data s1) (Serialized.data s2)
    /\ Serialized.size out = or_else (Serialized.size s1) 2
    /\ (Serialized.depth out = Z.max (Serialized.depth s1) (Serialized.depth s2)
        \/ Serialized.depth out = 0 /\ Serialized.bootstrapped out = true).
Proof.
  intros Hnodup H1 H2. unfold executeCircuit. rewrite loadInputs_encoded.
  set (wires := fold_left _ parsed ∅).
  assert (Hw1 : wires !! "input1" = Some (parsed_ciphertext s1))
    by (by apply bind_inputs_lookup).
  assert (Hw2 : wires !! "input2" = Some (parsed_ciphertext s2))
    by (by apply bind_inputs_lookup).
  unfold loadCircuitDefinition.
  cbn [FheCircuit.gates FheCircuit.outputs executeGates].
  unfold gate at 2 3.
  cbn [CircuitGate.inputs CircuitGate.output fmap list_fmap].
  rewrite Hw1, Hw2.
  destruct (executeGate_add system (parsed_ciphertext s1) (parsed_ciphertext s2) rng)
    as (r & Hrun & Hdata & Hsize & Hdepth).
  rewrite Hrun. cbn [executeGates collectOutputs]. rewrite lookup_insert_eq.
  eexists. split; [reflexivity|].
  cbn [serializeCiphertext Serialized.data Serialized.size Serialized.depth
       Serialized.bootstrapped].
  rewrite Hdata, Hsize, or_else_twice, or_else_zero, orb_false_r.
  split; [done|]. split; [done|]. exact Hdepth.
Qed.



(** X11.  executeCircuit, whatever the circuit identifier, adds the inputs
    named input1 and input2: for a caller with a wallet, a known user 'system'
    and an inputs object whose strings all deserialize and that binds both
    names, it returns the single output named output, whose payload is the
    zero-padded elementwise sum modulo 256 of the two payloads and whose size
    is that of input1; its depth is the larger input depth, or 0 when the sum
    was refreshed.  The run costs two random draws, and the inputs of other
    names, which are deserialized too, do not change the result. *)
Theorem executeCircuit_adds (wallet system circuitId : string)
    (parsed : list (string * Serialized.t)) (s1 s2 : Serialized.t) (rng : Rng) :
  NoDup parsed.*1 ->
  ("input1", s1) ∈ parsed ->
  ("input2", s2) ∈ parsed ->
  exists out,
    executeCircuit (Some wallet) (Some system) circuitId (encoded_inputs parsed) rng
    = (Ok [("output", out)], snd (Math_random (snd (Math_random rng))))
    /\ Serialized.data out = padded_sum (Serialized.data s1) (Serialized.data s2)
    /\ Serialized.size out = or_else (Serialized.size s1) 2
    /\ (Serialized.depth out = Z.max (Serialized.depth s1) (Serialized.depth s2)
        \/ Serialized.depth out = 0 /\ Serialized.bootstrapped out = true).
Proof. apply executeCircuit_sum. Qed.

(** X12.  executeCircuit fails without a random draw: for a caller without
    wallet, whatever the inputs; for a caller with a wallet, when one of the
    input strings, of whatever name, does not deserialize; when input1 or
    input2 is not among the inputs; and, on inputs that all deserialize and
    bind both names, when the user 'system' has no wallet, since every gate
    is run on behalf of 'system'. *)
Theorem executeCircuit_refusals :
  (forall system circuitId encryptedInputs rng,
     executeCircuit None system circuitId encryptedInputs rng
     = (Throw "User wallet not found", rng))
  /\ (forall wallet system circuitId encryptedInputs name rng,
        (name, Malformed) ∈ encryptedInputs ->
        executeCircuit (Some wallet) system circuitId encryptedInputs rng
        = (Throw "Failed to deserialize ciphertext", rng))
  /\ (forall wallet circuitId parsed s1 s2 rng,
        NoDup parsed.*1 ->
        ("input1", s1) ∈ parsed ->
        ("input2", s2) ∈ parsed ->
        executeCircuit (Some wallet) None circuitId (encoded_inputs parsed) rng
        = (Throw "User wallet not found", rng))
  /\ (forall wallet system circuitId encryptedInputs rng,
        "input1" ∉ encryptedInputs.*1 \/ "input2" ∉ encryptedInputs.*1 ->
        exists e,
          executeCircuit (Some wallet) system circuitId encryptedInputs rng
          = (Throw e, rng)).
Proof.
  split; [done|]. split; [|split].
  - intros wallet system circuitId encryptedInputs name rng Hbad.
    unfold executeCircuit. by rewrite (loadInputs_malformed _ _ name).
  - intros wallet circuitId parsed s1 s2 rng Hnodup H1 H2.
    unfold executeCircuit. rewrite loadInputs_encoded.
    set (wires := fold_left _ parsed ∅).
    assert (Hw1 : wires !! "input1" = Some (parsed_ciphertext s1))
      by (by apply bind_inputs_lookup).
    assert (Hw2 : wires !! "input2" = Some (parsed_ciphertext s2))
      by (by apply bind_inputs_lookup).
    unfold loadCircuitDefinition, gate.
    cbn [FheCircuit.gates FheCircuit.outputs executeGates CircuitGate.inputs
         CircuitGate.output CircuitGate.operation fmap list_fmap].
    by rewrite Hw1, Hw2.
  - intros wallet system circuitId encryptedInputs rng Hmissing.
    unfold executeCircuit.
    destruct (loadInputs encryptedInputs ∅) as [wires|e] eqn:Hload; [|by eexists].
    unfold loadCircuitDefinition, gate.
    cbn [FheCircuit.gates FheCircuit.outputs executeGates CircuitGate.inputs
         CircuitGate.output CircuitGate.operation fmap list_fmap].
    assert (Hnone : wires !! "input1" = None \/ wires !! "input2" = None).
    { destruct Hmissing as [Hm|Hm]; [left|right];
        by rewrite (loadInputs_keep _ _ _ _ Hm Hload). }
    unfold executeGate.
    destruct Hnone as [-> | ->]; [by eexists|].
    destruct (wires !! "input1"); by eexists.
Qed.
End ExecutorProofs.

(** ** The key cache *)

Lemma list_ascii_of_string_app (s t : string) :
  String.list_ascii_of_string (s +:+ t)
  = String.list_ascii_of_string s ++ String.list_ascii_of_string t.
Proof. induction s as [|c s IH]; simpl; [done|]. by rewrite IH. Qed.

Lemma suffix_same_length (l l' k k' : list Ascii.ascii) :
  length k = length k' -> l ++ k = l' ++ k' -> l = l' /\ k = k'.
Proof. intros Hlen Heq. by apply app_inj_2. Qed.

Lemma suffix_one_longer (l l' k k' : list Ascii.ascii) (c : Ascii.ascii) :
  length k = length k' -> l ++ c :: k = l' ++ k' -> k = k'.
Proof.
  intros Hlen Heq. rewrite cons_middle, app_assoc in Heq.
  by apply app_inj_2 in Heq as [_ Heq].
Qed.

Lemma cacheKey_inj (w w' : string) (s s' : FheScheme) :
  cacheKey w s = cacheKey w' s' -> w = w' /\ s = s'.
Proof.
  unfold cacheKey. intros Heq.
  apply (f_equal String.list_ascii_of_string) in Heq.
  rewrite !list_ascii_of_string_app in Heq.
  assert (Hlist : String.list_ascii_of_string w = String.list_ascii_of_string w' -> w = w').
  { intros Hl. apply (f_equal String.string_of_list_ascii) in Hl.
    by rewrite !String.string_of_list_ascii_of_string in Hl. }
  destruct s, s'; simpl in Heq;
    try (apply suffix_same_length in Heq as [Hw Hs]; [|reflexivity];
         first [discriminate Hs | by split; [apply Hlist|]]);
    try (apply suffix_one_longer in Heq; [|reflexivity]; discriminate Heq);
    try (symmetry in Heq; apply suffix_one_longer in Heq; [|reflexivity];
         discriminate Heq).
Qed.

(** X13.  After a call of getOrGenerateKeys the cache holds the returned pair for
    the wallet and scheme asked for, and every entry of another wallet or
    scheme is as it was; a second call for the same wallet and scheme returns
    the same pair without asking the custodian and without storing.  On a miss
    the pair in custody is returned and cached under the scheme asked for,
    whatever scheme that pair was generated for; only when custody has none
    is a new pair stored. *)
Theorem getOrGenerateKeys_cache (keyCache : gmap string FheKeyPair.t)
    (walletAddress : string) (scheme : FheScheme)
    (existingKeys : option FheKeyPair.t) (newKeys : FheKeyPair.t) :
  let r := getOrGenerateKeys keyCache walletAddress scheme existingKeys newKeys in
  KeyLookup.keyCache r !! cacheKey walletAddress scheme = Some (KeyLookup.keyPair r)
  /\ (forall walletAddress' scheme',
        (walletAddress', scheme') <> (walletAddress, scheme) ->
        KeyLookup.keyCache r !! cacheKey walletAddress' scheme'
        = keyCache !! cacheKey walletAddress' scheme')
  /\ (forall existingKeys' newKeys',
        getOrGenerateKeys (KeyLookup.keyCache r) walletAddress scheme existingKeys' newKeys'
        = {| KeyLookup.keyPair := KeyLookup.keyPair r;
             KeyLookup.keyCache := KeyLookup.keyCache r;
             KeyLookup.retrieved := false; KeyLookup.stored := None |})
  /\ (forall existing,
        keyCache !! cacheKey walletAddress scheme = None ->
        existingKeys = Some existing ->
        KeyLookup.keyPair r = existing /\ KeyLookup.stored r = None)
  /\ (forall stored,
        KeyLookup.stored r = Some stored ->
        stored = newKeys /\ existingKeys = None
        /\ keyCache !! cacheKey walletAddress scheme = None).
Proof.
  intros r.
  assert (Hhit : KeyLookup.keyCache r !! cacheKey walletAddress scheme
                 = Some (KeyLookup.keyPair r)).
  { unfold r, getOrGenerateKeys.
    destruct (keyCache !! cacheKey walletAddress scheme) as [cached|] eqn:Hc; [done|].
    destruct existingKeys; simpl; apply lookup_insert_eq. }
  split; [exact Hhit|]. split; [|split; [|split]].
  - intros w' s' Hother.
    assert (Hkey : cacheKey walletAddress scheme <> cacheKey w' s').
    { intros Heq. apply cacheKey_inj in Heq as [-> ->]. by apply Hother. }
    unfold r, getOrGenerateKeys.
    destruct (keyCache !! cacheKey walletAddress scheme) as [cached|]; [done|].
    destruct existingKeys; simpl; by apply lookup_insert_ne.
  - intros existingKeys' newKeys'. unfold getOrGenerateKeys at 1. by rewrite Hhit.
  - intros existing Hmiss ->. unfold r, getOrGenerateKeys. by rewrite Hmiss.
  - intros stored. unfold r, getOrGenerateKeys.
    destruct (keyCache !! cacheKey walletAddress scheme) as [cached|]; [done|].
    destruct existingKeys; simpl; [done|]. by intros [= <-].
Qed.

(** ** The two noise estimators *)

(** X14.  estimateNoiseGrowth of utils.ts: an addition adds 1.1 to the largest input
    noise, a subtraction adds 1 (the table has no SUBTRACT entry), a
    multiplication multiplies the product of the input noises by 2.5 and a
    rotation the largest by 1.2; for every other operation name, among them
    negate, bootstrap and the upper-case names, the largest input noise is
    returned as it is.  Without inputs the largest is [-Infinity]. *)
Theorem estimateNoiseGrowth_factors (inputNoise : list float) :
  utils.estimateNoiseGrowth "add" inputNoise
  = (utils.Math_max_numbers inputNoise + 1.1)%float
  /\ utils.estimateNoiseGrowth "subtract" inputNoise
     = (utils.Math_max_numbers inputNoise + 1)%float
  /\ utils.estimateNoiseGrowth "multiply" inputNoise
     = (fold_left (fun a b => (a * b)%float) inputNoise 1 * 2.5)%float
  /\ utils.estimateNoiseGrowth "rotate" inputNoise
     = (utils.Math_max_numbers inputNoise * 1.2)%float
  /\ (forall operation,
        operation ∉ ["add"; "subtract"; "multiply"; "rotate"] ->
        utils.estimateNoiseGrowth operation inputNoise
        = utils.Math_max_numbers inputNoise)
  /\ utils.estimateNoiseGrowth "negate" inputNoise = utils.Math_max_numbers inputNoise
  /\ utils.estimateNoiseGrowth "ADD" inputNoise = utils.Math_max_numbers inputNoise
  /\ utils.estimateNoiseGrowth "add" [] = neg_infinity
  /\ utils.estimateNoiseGrowth "multiply" [] = 2.5%float.
Proof.
  repeat split; try reflexivity.
  intros operation Hout. rewrite !elem_of_cons, elem_of_nil in Hout.
  unfold utils.estimateNoiseGrowth.
  repeat (case_decide; [tauto|]). done.
Qed.

Lemma estimate_fold_counted (gates : list CircuitGate.t) (start : float) :
  fold_left
    (fun noiseEstimate gate =>
       let operation := CircuitGate.operation gate in
       if decide (operation = "multiply")
       then (noiseEstimate * FHE_CONSTANTS.NOISE_GROWTH_FACTORS.MULTIPLY)%float
       else if decide (operation = "add")
       then (noiseEstimate * FHE_CONSTANTS.NOISE_GROWTH_FACTORS.ADD)%float
       else if decide (operation = "rotate")
       then (noiseEstimate * FHE_CONSTANTS.NOISE_GROWTH_FACTORS.ROTATE)%float
       else noiseEstimate)
    gates start
  = fold_left
      (fun noiseEstimate operation =>
         if decide (operation = "multiply")
         then (noiseEstimate * FHE_CONSTANTS.NOISE_GROWTH_FACTORS.MULTIPLY)%float
         else if decide (operation = "add")
         then (noiseEstimate * FHE_CONSTANTS.NOISE_GROWTH_FACTORS.ADD)%float
         else (noiseEstimate * FHE_CONSTANTS.NOISE_GROWTH_FACTORS.ROTATE)%float)
      (CircuitGate.operation <$> filter counted_gate gates) start.
Proof.
  revert start. induction gates as [|g gates IH]; intros start; [done|].
  cbn [fold_left]. rewrite IH. clear IH.
  destruct (decide (counted_gate g)) as [Hcounted|Hother].
  - rewrite filter_cons_True by done. rewrite fmap_cons. cbn [fold_left].
    f_equal. unfold counted_gate in Hcounted.
    repeat case_decide; try done. tauto.
  - rewrite filter_cons_False by done. f_equal. unfold counted_gate in Hother.
    repeat (case_decide; [tauto|]). done.
Qed.

(** X15.  estimateNoiseGrowth of the service reads nothing of a circuit but the
    sequence of its multiply, add and rotate operations: two circuits with
    the same such sequence get the same estimate, whatever other gates
    (subtract, negate, bootstrap, unknown names) stand between them and
    whatever the wires are. *)
Theorem estimateNoiseGrowth_counted_gates (circuit circuit' : FheCircuit.t) :
  CircuitGate.operation <$> filter counted_gate (FheCircuit.gates circuit)
  = CircuitGate.operation <$> filter counted_gate (FheCircuit.gates circuit') ->
  estimateNoiseGrowth circuit = estimateNoiseGrowth circuit'.
Proof.
  intros Hsame. unfold estimateNoiseGrowth.
  by rewrite !estimate_fold_counted, Hsame.
Qed.

(** ** The depth of a circuit and its multiply gates *)

Lemma depth_within_more (bound bound' : Z) (value : DepthValue) :
  bound <= bound' -> depth_within bound value -> depth_within bound' value.
Proof. destruct value; simpl; [done|lia]. Qed.

Lemma max2_within (bound : Z) (a b : DepthValue) :
  depth_within bound a -> depth_within bound b -> depth_within bound (max2 a b).
Proof. destruct a, b; simpl; try done. lia. Qed.

Lemma Math_max_within (bound : Z) (values : list DepthValue) :
  Forall (depth_within bound) values -> depth_within bound (Math_max values).
Proof.
  unfold Math_max. generalize NegInfinity, (I : depth_within bound NegInfinity).
  induction values as [|v values IH]; intros start Hstart Hall; [done|].
  apply Forall_cons in Hall as [Hv Hall]. cbn [fold_left].
  apply IH; [by apply max2_within|done].
Qed.

Lemma get_or_zero_within (bound : Z) (depths : gmap string DepthValue) (i : string) :
  0 <= bound ->
  map_Forall (fun _ value => depth_within bound value) depths ->
  depth_within bound (get_or_zero depths i).
Proof.
  intros Hbound Hall. unfold get_or_zero.
  destruct (depths !! i) as [value|] eqn:Hi; [|simpl; lia].
  specialize (Hall i value Hi). simpl in Hall.
  destruct value as [|[| |]]; simpl in *; done.
Qed.

Lemma gate_depth_within (bound : Z) (depths : gmap string DepthValue)
    (g : CircuitGate.t) :
  0 <= bound ->
  map_Forall (fun _ value => depth_within bound value) depths ->
  depth_within (bound + multiply_count [g]) (gate_depth depths g).
Proof.
  intros Hbound Hall.
  assert (Hmax : depth_within bound
                   (Math_max (map (get_or_zero depths) (CircuitGate.inputs g)))).
  { apply Math_max_within, List.Forall_map, Forall_forall. intros i _.
    by apply get_or_zero_within. }
  unfold gate_depth, multiply_count.
  case_decide as Hop.
  - rewrite filter_cons_True by done. cbn [length filter list_filter].
    destruct (Math_max _) as [|z]; simpl in *; [done|lia].
  - rewrite filter_cons_False by done.
    eapply depth_within_more; [|exact Hmax]. simpl. lia.
Qed.

Lemma multiply_count_cons (g : CircuitGate.t) (gates : list CircuitGate.t) :
  multiply_count (g :: gates) = multiply_count [g] + multiply_count gates
  /\ 0 <= multiply_count [g].
Proof.
  unfold multiply_count.
  destruct (decide (CircuitGate.operation g = "multiply")) as [Hop|Hop].
  - rewrite !filter_cons_True by done. simpl. lia.
  - rewrite !filter_cons_False by done. simpl. lia.
Qed.

Lemma depth_walk_within (gates : list CircuitGate.t) (bound : Z)
    (maxDepth : DepthValue) (depths : gmap string DepthValue) :
  0 <= bound ->
  (exists z, maxDepth = Finite z /\ 0 <= z <= bound) ->
  map_Forall (fun _ value => depth_within bound value) depths ->
  exists z, fst (fold_left depth_walk gates (maxDepth, depths)) = Finite z
            /\ 0 <= z <= bound + multiply_count gates.
Proof.
  revert bound maxDepth depths.
  induction gates as [|g gates IH]; intros bound maxDepth depths Hbound Hmax Hall.
  - destruct Hmax as (z & -> & Hz). exists z. split; [done|].
    unfold multiply_count. simpl. lia.
  - cbn [fold_left depth_walk].
    destruct (multiply_count_cons g gates) as [Hcount Hone]. rewrite Hcount.
    pose proof (gate_depth_within bound depths g Hbound Hall) as Hgate.
    destruct (IH (bound + multiply_count [g])
                 (max2 maxDepth (gate_depth depths g))
                 (<[CircuitGate.output g := gate_depth depths g]> depths))
      as (z & Hz & Hrange).
    + lia.
    + destruct Hmax as (m & -> & Hm).
      destruct (gate_depth depths g) as [|d]; simpl in *.
      * exists m. split; [done|lia].
      * exists (Z.max m d). split; [done|lia].
    + apply map_Forall_insert_2; [done|].
      eapply map_Forall_impl; [exact Hall|].
      intros w value. apply depth_within_more. lia.
    + exists z. split; [done|lia].
Qed.

Lemma multiply_count_none (gates : list CircuitGate.t) :
  Forall (fun g => CircuitGate.operation g <> "multiply") gates ->
  multiply_count gates = 0.
Proof.
  unfold multiply_count. induction 1 as [|g gates Hg _ IH]; [done|].
  by rewrite filter_cons_False.
Qed.

(** X16.  The depth that calculateCircuitDepth gives a circuit is an integer from 0
    to the number of its multiply gates, whatever the wiring (wires read
    before they are written, gates without inputs, outputs written twice); a
    circuit without multiply gate has depth 0. *)
Theorem calculateCircuitDepth_bounded (circuit : FheCircuit.t) :
  (exists d, calculateCircuitDepth circuit = Finite d
             /\ 0 <= d <= multiply_count (FheCircuit.gates circuit))
  /\ (Forall (fun g => CircuitGate.operation g <> "multiply") (FheCircuit.gates circuit) ->
        calculateCircuitDepth circuit = Finite 0).
Proof.
  assert (Hbound : exists d, calculateCircuitDepth circuit = Finite d
             /\ 0 <= d <= multiply_count (FheCircuit.gates circuit)).
  { unfold calculateCircuitDepth.
    destruct (depth_walk_within (FheCircuit.gates circuit) 0 (Finite 0)
                (seed_inputs (FheCircuit.inputs circuit))) as (z & Hz & Hrange).
    - lia.
    - exists 0. split; [done|lia].
    - intros i value Hi. rewrite seed_inputs_lookup in Hi.
      case_decide; [|done]. injection Hi as <-. simpl. lia.
    - exists z. split; [done|lia]. }
  split; [exact Hbound|].
  intros Hnone. destruct Hbound as (d & -> & Hd). f_equal.
  pose proof (multiply_count_none _ Hnone). lia.
Qed.

(** ** Packed buffers: concatenation and stray bytes *)

Lemma packed_format_app (xs ys : list (list Z)) :
  packed_format (xs ++ ys) = packed_format xs ++ packed_format ys.
Proof. unfold packed_format. by rewrite map_app, concat_app. Qed.

Lemma length_packed_format (values : list (list Z)) :
  length (packed_format values)
  = (sum_list (length <$> values) + 4 * length values)%nat.
Proof.
  induction values as [|v values IH]; [done|].
  rewrite packed_format_cons, !length_app, length_be32, IH, fmap_cons, length_cons.
  change (sum_list (length v :: (length <$> values)))
    with (length v + sum_list (length <$> values))%nat.
  lia.
Qed.

(** X17.  packValues never fails, and packing is compatible with concatenation:
    the packed form of two sequences one after the other is the two packed
    forms one after the other, its length is the total length of the buffers
    plus 4 for each, and unpackValues of two packed buffers joined returns
    the two sequences joined (for buffers shorter than [2 ^ 31] bytes). *)
Theorem packValues_app (xs ys : list (list Z)) :
  exists p q,
    packValues xs = Some p /\ packValues ys = Some q
    /\ packValues (xs ++ ys) = Some (p ++ q)
    /\ length p = (sum_list (length <$> xs) + 4 * length xs)%nat
    /\ (Forall short_buffer xs -> Forall short_buffer ys ->
        forall fuel, (length xs + length ys <= fuel)%nat ->
          unpackValues fuel (p ++ q) = Some (xs ++ ys)).
Proof.
  exists (packed_format xs), (packed_format ys).
  rewrite !packValues_format, packed_format_app.
  split; [done|]. split; [done|]. split; [done|].
  split; [apply length_packed_format|].
  intros Hxs Hys fuel Hfuel. unfold unpackValues.
  rewrite <- packed_format_app.
  pose proof (unpack_format (xs ++ ys) [] [] [] (fuel - length (xs ++ ys))
                ltac:(by apply Forall_app)) as Hrun.
  cbn [app length] in Hrun. rewrite app_nil_r in Hrun.
  replace (length (xs ++ ys) + (fuel - length (xs ++ ys)))%nat with fuel in Hrun
    by (rewrite length_app; lia).
  change (Z.of_nat 0) with 0 in Hrun. rewrite Hrun.
  apply unpack_exit. lia.
Qed.

Lemma be32_of_bytes (h0 h1 h2 h3 : Z) :
  is_byte h0 -> is_byte h1 -> is_byte h2 -> is_byte h3 ->
  be32 (h0 * 2 ^ 24 + h1 * 2 ^ 16 + h2 * 2 ^ 8 + h3) = [h0; h1; h2; h3].
Proof.
  unfold is_byte, be32. intros H0 H1 H2 H3.
  set (n := h0 * 2 ^ 24 + h1 * 2 ^ 16 + h2 * 2 ^ 8 + h3).
  assert (E0 : n / 2 ^ 24 = h0)
    by (symmetry; apply (Z.div_unique n _ h0 (h1 * 2 ^ 16 + h2 * 2 ^ 8 + h3));
        unfold n; lia).
  assert (E1 : n / 2 ^ 16 = h0 * 256 + h1)
    by (symmetry; apply (Z.div_unique n _ _ (h2 * 2 ^ 8 + h3)); unfold n; lia).
  assert (E2 : n / 2 ^ 8 = (h0 * 2 ^ 16 + h1 * 256) + h2)
    by (symmetry; apply (Z.div_unique n _ _ h3); unfold n; lia).
  rewrite E0, E1, E2.
  assert (M : forall q r, 0 <= r < 256 -> (q * 256 + r) mod 256 = r).
  { intros q r Hr. symmetry. apply (Z.mod_unique _ _ q); lia. }
  rewrite (Z.mod_small h0) by lia. rewrite (M h0 h1) by lia.
  replace (h0 * 2 ^ 16 + h1 * 256 + h2) with ((h0 * 256 + h1) * 256 + h2) by lia.
  rewrite M by lia.
  replace n with ((h0 * 2 ^ 16 + h1 * 256 + h2) * 256 + h3) by (unfold n; lia).
  by rewrite M by lia.
Qed.

Lemma at_app_tail (pre rest : list Z) (j : nat) :
  at_ (pre ++ rest) (Z.of_nat (length pre) + Z.of_nat j) = default 0 (rest !! j).
Proof.
  rewrite <- Nat2Z.inj_add, at_nat, lookup_app_r by lia.
  by replace (length pre + j - length pre)%nat with j by lia.
Qed.

Lemma slice_past_end (a : list Z) (s e : Z) :
  Z.of_nat (length a) <= s -> slice a s e = [].
Proof.
  intros Hs. unfold slice.
  destruct (Z.ltb_spec s 0); [lia|].
  rewrite (Z.min_r s) by lia.
  replace (Z.to_nat _) with 0%nat; [done|].
  destruct (Z.ltb_spec e 0); lia.
Qed.

Lemma unpack_partial_prefix (pre rest : list Z) (fuel : nat) (acc : list (list Z)) :
  Forall is_byte rest ->
  (0 < length rest < 4)%nat ->
  default 0 (rest !! 0%nat) < 128 ->
  unpackValues_loop (S fuel) (pre ++ rest) (Z.of_nat (length pre)) acc
  = Some (acc ++ [[]]).
Proof.
  intros Hbytes Hlen Hhead.
  pose proof (lookup_byte rest 0 Hbytes) as B0.
  pose proof (lookup_byte rest 1 Hbytes) as B1.
  pose proof (lookup_byte rest 2 Hbytes) as B2.
  pose proof (lookup_byte rest 3 Hbytes) as B3.
  pose proof (at_app_tail pre rest 0) as R0.
  pose proof (at_app_tail pre rest 1) as R1.
  pose proof (at_app_tail pre rest 2) as R2.
  pose proof (at_app_tail pre rest 3) as R3.
  change (Z.of_nat 0) with 0 in R0. rewrite Z.add_0_r in R0.
  change (Z.of_nat 1) with 1 in R1.
  change (Z.of_nat 2) with 2 in R2.
  change (Z.of_nat 3) with 3 in R3.
  revert B0 B1 B2 B3 R0 R1 R2 R3 Hhead.
  generalize (default 0 (rest !! 0%nat)) (default 0 (rest !! 1%nat))
    (default 0 (rest !! 2%nat)) (default 0 (rest !! 3%nat)).
  intros h0 h1 h2 h3 B0 B1 B2 B3 R0 R1 R2 R3 Hhead.
  unfold is_byte in *.
  remember (h0 * 2 ^ 24 + h1 * 2 ^ 16 + h2 * 2 ^ 8 + h3) as n eqn:En.
  assert (Hn : 0 <= n < 2 ^ 31) by lia.
  pose proof (read_be32 n Hn) as Hread.
  pose proof (be32_of_bytes h0 h1 h2 h3 B0 B1 B2 B3) as Hbe.
  rewrite <- En in Hbe. unfold be32 in Hbe.
  injection Hbe as E0 E1 E2 E3. rewrite E0, E1, E2, E3 in Hread.
  cbn [unpackValues_loop].
  destruct (Z.ltb_spec (Z.of_nat (length pre)) (Z.of_nat (length (pre ++ rest))))
    as [_|Hout]; [|rewrite length_app in Hout; lia].
  rewrite R0, R1, R2, R3, Hread.
  rewrite slice_past_end by (rewrite length_app; lia).
  apply unpack_exit. rewrite length_app. lia.
Qed.

(** X18.  One to three stray bytes after the last record are read as a length
    prefix whose missing bytes count as 0: when the first of them is below
    128, unpackValues does not fail but returns the values followed by one
    empty value that was never packed. *)
Theorem unpackValues_stray_bytes (values : list (list Z)) (rest : list Z) (fuel : nat) :
  Forall short_buffer values ->
  Forall is_byte rest ->
  (0 < length rest < 4)%nat ->
  default 0 (rest !! 0%nat) < 128 ->
  (length values < fuel)%nat ->
  unpackValues fuel (packed_format values ++ rest) = Some (values ++ [[]]).
Proof.
  intros Hshort Hbytes Hlen Hhead Hfuel. unfold unpackValues.
  pose proof (unpack_format values [] rest [] (S (fuel - S (length values))) Hshort)
    as Hrun.
  cbn [app length] in Hrun.
  replace (length values + S (fuel - S (length values)))%nat with fuel in Hrun by lia.
  change (Z.of_nat 0) with 0 in Hrun. rewrite Hrun.
  by apply unpack_partial_prefix.
Qed.

(** ** The order of the operands *)

Lemma sum_to_shift (n : nat) (f : nat -> Z) :
  sum_to (S n) f = f 0%nat + sum_to n (fun i => f (S i)).
Proof.
  induction n as [|n IH]; [unfold sum_to; simpl; lia|].
  rewrite sum_to_S, IH, (sum_to_S n). lia.
Qed.

Lemma sum_to_reverse (k : nat) (f : nat -> Z) :
  sum_to (S k) f = sum_to (S k) (fun i => f (k - i)%nat).
Proof.
  revert f. induction k as [|k IH]; intros f; [done|].
  rewrite sum_to_S, (sum_to_shift (S k)), (IH f).
  replace (S k - 0)%nat with (S k) by lia.
  rewrite Z.add_comm. f_equal.
Qed.

Lemma convolution_coefficient_comm (a b : list Z) (k : nat) :
  convolution_coefficient a b k = convolution_coefficient b a k.
Proof.
  unfold convolution_coefficient. rewrite sum_to_reverse.
  apply sum_to_ext. intros i Hi.
  replace (k - (k - i))%nat with i by lia. lia.
Qed.

Lemma multiply_data_comm (a b : list Z) : multiply_data a b = multiply_data b a.
Proof.
  rewrite !multiply_data_convolution. unfold convolution.
  rewrite (Nat.add_comm (length b)).
  apply map_ext. intros k. by rewrite convolution_coefficient_comm.
Qed.

Lemma padded_sum_comm (a b : list Z) : padded_sum a b = padded_sum b a.
Proof.
  apply list_eq. intros k.
  destruct (Nat.lt_ge_cases k (Nat.max (length a) (length b))) as [Hk|Hk].
  - rewrite !padded_sum_lookup by lia. by rewrite Z.add_comm.
  - rewrite !lookup_ge_None_2; [done| |]; rewrite length_padded_sum; lia.
Qed.

Lemma column_sum_permutation (payloads payloads' : list (list Z)) (k : nat) :
  payloads ≡ₚ payloads' -> column_sum payloads k = column_sum payloads' k.
Proof.
  induction 1 as [|x l l' _ IH|x y l|l l' l'' _ IH1 _ IH2].
  - done.
  - by rewrite !column_sum_cons, IH.
  - rewrite !column_sum_cons. lia.
  - by rewrite IH1.
Qed.

Lemma longest_permutation (payloads payloads' : list (list Z)) :
  payloads ≡ₚ payloads' -> longest payloads = longest payloads'.
Proof.
  induction 1 as [|x l l' _ IH|x y l|l l' l'' _ IH1 _ IH2].
  - done.
  - by rewrite !longest_cons, IH.
  - rewrite !longest_cons. lia.
  - by rewrite IH1.
Qed.

(** X19.  The payload of a product and of a sum does not depend on the order of the
    two operands, nor does the depth; the size of a sum is that of its first
    operand, so it does.  performAddition of the same ciphertexts in another
    order returns the same payload and depth. *)
Theorem operand_order :
  (forall a b,
     data (performHomomorphicMultiply a b) = data (performHomomorphicMultiply b a)
     /\ depth (performHomomorphicMultiply a b) = depth (performHomomorphicMultiply b a)
     /\ size (performHomomorphicMultiply a b) = size (performHomomorphicMultiply b a))
  /\ (forall a b,
        data (performHomomorphicAdd a b) = data (performHomomorphicAdd b a)
        /\ depth (performHomomorphicAdd a b) = depth (performHomomorphicAdd b a)
        /\ size (performHomomorphicAdd a b) = size a
        /\ size (performHomomorphicAdd b a) = size b)
  /\ (forall inputs inputs' r r',
        inputs ≡ₚ inputs' ->
        performAddition inputs = Ok r ->
        performAddition inputs' = Ok r' ->
        data r = data r' /\ depth r = depth r').
Proof.
  split; [|split].
  - intros a b. cbn [performHomomorphicMultiply data depth size].
    split; [apply multiply_data_comm|]. split; lia.
  - intros a b. rewrite !performHomomorphicAdd_data.
    split; [apply padded_sum_comm|].
    cbn [performHomomorphicAdd depth size]. split; [lia|done].
  - intros inputs inputs' r r' Hperm Hr Hr'.
    destruct inputs as [|first [|second rest]]; [done|done|].
    destruct inputs' as [|first' [|second' rest']]; [done|done|].
    injection Hr as <-. injection Hr' as <-.
    destruct (add_all_shape first second rest) as (Hlen & Hcol & Hall & Hex & _).
    destruct (add_all_shape first' second' rest') as (Hlen' & Hcol' & Hall' & Hex' & _).
    cbv zeta in *.
    set (r := fold_left performHomomorphicAdd (second :: rest) first) in *.
    set (r' := fold_left performHomomorphicAdd (second' :: rest') first') in *.
    assert (Hpayloads : data <$> first :: second :: rest
                        ≡ₚ data <$> first' :: second' :: rest')
      by (by apply fmap_Permutation).
    change (data r = data r' /\ depth r = depth r').
    split.
    + apply list_eq. intros k.
      destruct (Nat.lt_ge_cases k (length (data r))) as [Hk|Hk].
      * rewrite Hcol by lia. rewrite Hcol'.
        -- by rewrite (column_sum_permutation _ _ k Hpayloads).
        -- rewrite <- (longest_permutation _ _ Hpayloads). lia.
      * rewrite !lookup_ge_None_2; [done| |exact Hk].
        rewrite Hlen', <- (longest_permutation _ _ Hpayloads), <- Hlen. exact Hk.
    + apply Z.le_antisymm.
      * apply Exists_exists in Hex as (x & Hx & ->).
        rewrite Forall_forall in Hall'. apply Hall'. by rewrite <- Hperm.
      * apply Exists_exists in Hex' as (x & Hx & ->).
        rewrite Forall_forall in Hall. apply Hall. by rewrite Hperm.
Qed.

(** ** Transport *)

(** X20.  What survives serializeCiphertext followed by deserializeCiphertext:
    the string that serializeCiphertext returns always deserializes; payload,
    depth and the bootstrapped mark are kept, a size of 0 becomes 2, and the
    relinearized mark is always lost; serializing again gives the same
    transport form. *)
Theorem transport_round_trip (c : Ciphertext) :
  exists c',
    deserializeCiphertext (Encoded (serializeCiphertext c)) = Ok c'
    /\ data c' = data c
    /\ depth c' = depth c
    /\ size c' = or_else (size c) 2
    /\ bootstrapped c' = bootstrapped c
    /\ relinearized c' = false
    /\ needsRelinearization c' = needsRelinearization c
    /\ serializeCiphertext c' = serializeCiphertext c.
Proof.
  eexists. split; [reflexivity|].
  unfold serializeCiphertext, parsed_ciphertext, needsRelinearization.
  cbn [data depth size bootstrapped relinearized Serialized.data Serialized.depth
       Serialized.size Serialized.bootstrapped Serialized.noise].
  rewrite !or_else_twice, !or_else_zero, !orb_false_r. done.
Qed.

(** ** Rotation through the service *)

(** X21.  A rotation asked for with amount 0, or with no amount, is a rotation
    by one place: the three requests give the same outcome.  When the inputs
    after the first all deserialize, that outcome is the first input rotated
    by one, whatever those inputs hold, and on a byte payload it is the
    payload moved right by one; when one of them does not deserialize, the
    request fails. *)
Theorem rotation_amount_default (s : Serialized.t) (others : list Transport)
    (autoBootstrap : bool) :
  let request amount :=
    dispatch_operation
      {| HomomorphicOperation.type := "rotate";
         HomomorphicOperation.inputs := Encoded s :: others;
         HomomorphicOperation.autoBootstrap := autoBootstrap;
         HomomorphicOperation.rotationAmount := amount |} in
  request None = request (Some 1)
  /\ request (Some 0) = request (Some 1)
  /\ (Malformed ∉ others ->
      request (Some 1) = inl (Ok (rotateMockValue (parsed_ciphertext s) 1)))
  /\ (Malformed ∈ others ->
      forall amount, request amount = inl (Throw "Failed to deserialize ciphertext"))
  /\ (Forall is_byte (Serialized.data s) ->
      data (rotateMockValue (parsed_ciphertext s) 1)
      = rotate_right 1 (Serialized.data s)).
Proof.
  intros request. split; [done|]. split; [done|]. split; [|split].
  - intros Hgood. destruct (well_formed_inputs others Hgood) as [parsed ->].
    unfold request, dispatch_operation.
    cbn [HomomorphicOperation.inputs HomomorphicOperation.type
         HomomorphicOperation.rotationAmount map_result deserializeCiphertext].
    by rewrite map_result_encoded.
  - intros Hbad amount. unfold request, dispatch_operation.
    cbn [HomomorphicOperation.inputs].
    rewrite map_result_malformed; [done|]. by apply elem_of_cons; right.
  - intros Hbytes.
    by rewrite (rotateMockValue_forward (parsed_ciphertext s) 1 ltac:(lia) Hbytes).
Qed.

Section GateProofs.
Context `{Platform}.

(** X22.  A rotate gate of a circuit always rotates by one place: executeGate hands
    performHomomorphicOperation no rotation amount, so the gate's parameters
    are not read.  The gate costs two random draws and returns the byte
    payload of its input moved right by one. *)
Theorem executeGate_rotates_by_one (system : string) (g : CircuitGate.t)
    (c : Ciphertext) (rng : Rng) :
  CircuitGate.operation g = "rotate" ->
  Forall is_byte (data c) ->
  exists r,
    executeGate (Some system) g [Some c] rng
    = (Ok r, snd (Math_random (snd (Math_random rng))))
    /\ data r = rotate_right 1 (data c)
    /\ length (data r) = length (data c).
Proof.
  intros Hop Hbytes. unfold executeGate.
  cbn [mapM id mbind option_bind mret option_ret fmap list_fmap].
  rewrite Hop.
  set (operation := {| HomomorphicOperation.type := "rotate" |}).
  set (a := parsed_ciphertext (serializeCiphertext c)).
  destruct (operation_report system operation (rotateMockValue a 1) rng)
    as (r & Hrun & _ & Hdata & _); [reflexivity|].
  rewrite Hrun. eexists. split; [reflexivity|].
  cbn [parsed_ciphertext data]. rewrite Hdata.
  assert (Hrot : data (rotateMockValue a 1) = rotate_right 1 (data c))
    by (by apply (rotateMockValue_forward a 1)).
  rewrite Hrot. split; [done|]. apply length_rotate_right.
Qed.
End GateProofs.

(** ** The keystream generator *)

Section GeneratorProofs.
Context `{Platform}.

Lemma generateNoise_loop_rng (n : nat) (stdDev : float) (rng : Rng) :
  snd (generateNoise_loop n stdDev rng)
  = Nat.iter (2 * n) (fun r => snd (Math_random r)) rng.
Proof.
  revert rng. induction n as [|n IH]; intros rng; [done|].
  replace (2 * S n)%nat with (n + n + 2)%nat by lia.
  rewrite Nat.iter_add. replace (n + n)%nat with (2 * n)%nat by lia.
  change (Nat.iter 2 (fun r => snd (Math_random r)) rng)
    with (snd (Math_random (snd (Math_random rng)))).
  cbn [generateNoise_loop].
  destruct (Math_random rng) as [u1 rng1]. cbn [snd].
  destruct (Math_random rng1) as [u2 rng2]. cbn [snd].
  specialize (IH rng2). destruct (generateNoise_loop n stdDev rng2) as [rest rng3].
  exact IH.
Qed.

(** X23.  Whatever the standard deviation and the draws are, generateNoise returns
    32 bytes and costs exactly 64 random draws; so do encryptValue and, on a
    payload of at least 32 bytes, decryptValue. *)
Theorem generateNoise_shape (stdDev : float) (rng : Rng) :
  let draws := Nat.iter 64 (fun r => snd (Math_random r)) rng in
  length (fst (generateNoise stdDev rng)) = 32%nat
  /\ Forall is_byte (fst (generateNoise stdDev rng))
  /\ snd (generateNoise stdDev rng) = draws
  /\ (forall value, snd (encryptValue value stdDev rng) = draws)
  /\ (forall c, noise c = stdDev -> (32 <= length (data c))%nat ->
        snd (decryptValue c rng) = draws).
Proof.
  intros draws.
  assert (Hrng : snd (generateNoise stdDev rng) = draws)
    by apply (generateNoise_loop_rng 32).
  split; [apply generateNoise_loop_length|].
  split; [apply generateNoise_loop_bytes|].
  split; [exact Hrng|]. split.
  - intros value. by rewrite encryptValue_rng.
  - intros c <- Hlong. unfold decryptValue.
    destruct (Z.ltb_spec (Z.of_nat (length (data c)) - 32) 0); [lia|].
    rewrite <- Hrng. by destruct (generateNoise (noise c) rng).
Qed.
End GeneratorProofs.

(** * The further properties at concrete inputs *)

Lemma rotateMockValue_cyclic_witness :
  data (rotateMockValue (fresh_ciphertext [1; 2; 3]) 4) = rotate_right 4 [1; 2; 3]
  /\ data (rotateMockValue (fresh_ciphertext [1; 2; 3]) 4) ≡ₚ [1; 2; 3].
Proof.
  destruct (rotateMockValue_cyclic (fresh_ciphertext [1; 2; 3]) 4)
    as (Hdata & _ & _ & Hperm & _).
  - lia.
  - repeat constructor; unfold is_byte; lia.
  - split; [exact Hdata|exact Hperm].
Defined.

Lemma rotateMockValue_negative_amount_witness :
  data (rotateMockValue (fresh_ciphertext [1; 2; 3]) (-1)) = [2; 3; 0].
Proof.
  apply (rotateMockValue_negative_amount (fresh_ciphertext [1; 2; 3]) (-1)).
  - lia.
  - discriminate.
  - repeat constructor; unfold is_byte; lia.
Defined.

Lemma encryptValue_keystream_period_witness :
  exists c,
    fst (@encryptValue constant_platform (replicate 40 7) 3.2%float 0%nat) = Ok c
    /\ (forall i, (i + 32 < length (replicate 40 7))%nat ->
          Z.lxor (default 0 (data c !! i)) (default 0 (data c !! (i + 32)%nat))
          = Z.lxor (default 0 (replicate 40 7 !! i))
                   (default 0 (replicate 40 7 !! (i + 32)%nat)))
    /\ drop (length (replicate 40 7)) (data c)
       = @keccak256 constant_platform
           (replicate 40 7 ++ fst (@generateNoise constant_platform 3.2%float 0%nat)).
Proof.
  apply (@encryptValue_keystream_period constant_platform (replicate 40 7) 3.2%float 0%nat).
  - apply Forall_replicate. unfold is_byte. lia.
  - intros x. reflexivity.
Defined.

Lemma performHomomorphicOperation_report_witness :
  exists r,
    @performHomomorphicOperation constant_platform (Some "0xabc")
      {| HomomorphicOperation.type := "add";
         HomomorphicOperation.inputs :=
           [Encoded (serializeCiphertext (fresh_ciphertext [1; 2]));
            Encoded (serializeCiphertext (fresh_ciphertext [3]))];
         HomomorphicOperation.autoBootstrap := true;
         HomomorphicOperation.rotationAmount := None |} 0%nat
    = (Ok r, 2%nat)
    /\ Serialized.data (FheComputationResult.result r) = [4; 2].
Proof.
  destruct (@performHomomorphicOperation_report constant_platform "0xabc"
              {| HomomorphicOperation.type := "add";
                 HomomorphicOperation.inputs :=
                   [Encoded (serializeCiphertext (fresh_ciphertext [1; 2]));
                    Encoded (serializeCiphertext (fresh_ciphertext [3]))];
                 HomomorphicOperation.autoBootstrap := true;
                 HomomorphicOperation.rotationAmount := None |}
              (performHomomorphicAdd
                 (parsed_ciphertext (serializeCiphertext (fresh_ciphertext [1; 2])))
                 (parsed_ciphertext (serializeCiphertext (fresh_ciphertext [3]))))
              0%nat)
    as (r & Hrun & _ & Hdata & _).
  - reflexivity.
  - exists r. split; [exact Hrun|exact Hdata].
Defined.

Lemma executeCircuit_adds_witness :
  exists out,
    @executeCircuit constant_platform (Some "0xabc") (Some "0xsys") "any"
      (encoded_inputs
         [("input1", serializeCiphertext (fresh_ciphertext [1; 2]));
          ("unused", serializeCiphertext (fresh_ciphertext [9]));
          ("input2", serializeCiphertext (fresh_ciphertext [3]))]) 0%nat
    = (Ok [("output", out)], 2%nat)
    /\ Serialized.data out = [4; 2].
Proof.
  destruct (@executeCircuit_adds constant_platform "0xabc" "0xsys" "any"
              [("input1", serializeCiphertext (fresh_ciphertext [1; 2]));
               ("unused", serializeCiphertext (fresh_ciphertext [9]));
               ("input2", serializeCiphertext (fresh_ciphertext [3]))]
              (serializeCiphertext (fresh_ciphertext [1; 2]))
              (serializeCiphertext (fresh_ciphertext [3])) 0%nat)
    as (out & Hrun & Hdata & _).
  - apply (bool_decide_unpack _). vm_compute. exact I.
  - rewrite !elem_of_cons. by left.
  - rewrite !elem_of_cons. right. right. by left.
  - exists out. split; [exact Hrun|exact Hdata].
Defined.

Lemma estimateNoiseGrowth_counted_gates_witness :
  estimateNoiseGrowth
    {| FheCircuit.name := "plain"; FheCircuit.inputs := ["a"; "b"];
       FheCircuit.outputs := ["c"];
       FheCircuit.gates := [gate "multiply" ["a"; "b"] "c"] |}
  = estimateNoiseGrowth
      {| FheCircuit.name := "padded"; FheCircuit.inputs := ["x"];
         FheCircuit.outputs := ["z"];
         FheCircuit.gates :=
           [gate "negate" ["x"] "y"; gate "multiply" ["x"; "y"] "z";
            gate "bootstrap" ["z"] "z"] |}.
Proof.
  apply estimateNoiseGrowth_counted_gates. vm_compute. reflexivity.
Defined.

Lemma unpackValues_stray_bytes_witness :
  unpackValues 2 (packed_format [[7]] ++ [1; 2]) = Some ([[7]] ++ [[]]).
Proof.
  apply (unpackValues_stray_bytes [[7]] [1; 2] 2).
  - repeat constructor; unfold short_buffer; simpl; lia.
  - repeat constructor; unfold is_byte; lia.
  - simpl. lia.
  - simpl. lia.
  - simpl. lia.
Defined.

Lemma executeGate_rotates_by_one_witness :
  exists r,
    @executeGate constant_platform (Some "0xsys") (gate "rotate" ["a"] "b")
      [Some (fresh_ciphertext [1; 2; 3])] 0%nat
    = (Ok r, 2%nat)
    /\ data r = [3; 1; 2].
Proof.
  destruct (@executeGate_rotates_by_one constant_platform "0xsys"
              (gate "rotate" ["a"] "b") (fresh_ciphertext [1; 2; 3]) 0%nat)
    as (r & Hrun & Hdata & _).
  - reflexivity.
  - repeat constructor; unfold is_byte; lia.
  - exists r. split; [exact Hrun|exact Hdata].
Defined.
